(** * p3a: scalar primitives and the safeguarded inversion solver

    The development follows [p3a_unit_tests_search.cpp] and the numeric
    header it is shipped with.  The C++ templates are generic in their value
    types, so the embedding is generic in a [Scalar] interface; the unit tests
    instantiate the templates at [double], which is the binary64 instance
    below (Rocq's primitive floats, specified by [SpecFloat]: round to
    nearest even, signed zeros, infinities, one NaN).  A second instance over
    the real numbers gives the exact-arithmetic reading of the same
    definitions.  A decimal literal such as [0.3] denotes the nearest
    binary64 value, as it does in C++.  The functions of the C library
    that the cosine test calls, [std::cos] and [std::sin], have no
    counterpart in the binary64 specification: they are parameters.

    The header [p3a_search.hpp] with [invert_differentiable_function] is not
    among the sources: the solver is modelled from section 4.1 of the
    specification, and what the specification leaves open (iteration cap,
    progress rule, width threshold) is a parameter of the model.

    The first part holds the definitions, the second part the properties. *)

From Stdlib Require Import ZArith Bool List Lia Floats Reals Lra Psatz.

Set Warnings "-inexact-float".
Import ListNotations.

Set Implicit Arguments.

(** ** The scalar interface required by the templates *)

(** The operators a value type must offer for [average], [are_close] and the
    solver to be instantiated at it: the literals [0], [Value(1)] and [2],
    the four arithmetic operators, [abs] and the comparisons. *)
Class Scalar (T : Type) : Type := {
  szero : T;
  sone : T;
  stwo : T;
  sadd : T -> T -> T;
  ssub : T -> T -> T;
  smul : T -> T -> T;
  sdiv : T -> T -> T;
  sabs : T -> T;
  sltb : T -> T -> bool;
  sleb : T -> T -> bool;
  seqb : T -> T -> bool
}.

Declare Scope scalar_scope.
Delimit Scope scalar_scope with sc.
Notation "a + b" := (sadd a b) : scalar_scope.
Notation "a - b" := (ssub a b) : scalar_scope.
Notation "a * b" := (smul a b) : scalar_scope.
Notation "a / b" := (sdiv a b) : scalar_scope.
Notation "a <? b" := (sltb a b) (at level 70, no associativity) : scalar_scope.
Notation "a <=? b" := (sleb a b) (at level 70, no associativity) : scalar_scope.
Notation "a =? b" := (seqb a b) (at level 70, no associativity) : scalar_scope.

(** [double]: IEEE-754 binary64 with round-to-nearest-even, one NaN. *)
#[export] Instance double : Scalar float := {|
  szero := 0%float;
  sone := 1%float;
  stwo := 2%float;
  sadd := PrimFloat.add;
  ssub := PrimFloat.sub;
  smul := PrimFloat.mul;
  sdiv := PrimFloat.div;
  sabs := PrimFloat.abs;
  sltb := PrimFloat.ltb;
  sleb := PrimFloat.leb;
  seqb := PrimFloat.eqb
|}.

(** Exact arithmetic: the same operators over the real numbers. *)
Definition Rltb (x y : R) : bool := if Rlt_dec x y then true else false.
Definition Rleb (x y : R) : bool := if Rle_dec x y then true else false.
Definition Reqb (x y : R) : bool := if Req_dec_T x y then true else false.

#[export] Instance real : Scalar R := {|
  szero := 0%R;
  sone := 1%R;
  stwo := 2%R;
  sadd := Rplus;
  ssub := Rminus;
  smul := Rmult;
  sdiv := Rdiv;
  sabs := Rabs;
  sltb := Rltb;
  sleb := Rleb;
  seqb := Reqb
|}.

(** ** Numeric primitives of the header *)

Section Primitives.
Context {T : Type} `{Scalar T}.
Local Open Scope scalar_scope.

(** [condition(a, b, c)]: [a ? b : c]. *)
Definition condition {A : Type} (a : bool) (b c : A) : A :=
  if a then b else c.

(** [maximum(a, b)] is [condition(a < b, b, a)]; [p3a::max] is
    [Kokkos::max], the same ternary [(a < b) ? b : a]. *)
Definition maximum (a b : T) : T := condition (a <? b) b a.
Definition max (a b : T) : T := if a <? b then b else a.

(** [average(a, b)]: [(a + b) / 2]. *)
Definition average (a b : T) : T := (a + b) / stwo.

(** [are_close(a, b, tolerance)]. *)
Definition are_close (a b tolerance : T) : bool :=
  let difference := sabs (b - a) in
  let scale := sabs a + sabs b in
  difference <=? tolerance * max scale sone.

(** The tolerance predicate in the words of the specification:
    [|range - target| <= tolerance * max(1, |range| + |target|)],
    every operator being the scalar type's own. *)
Definition within_tolerance (range target tolerance : T) : bool :=
  sabs (range - target) <=? tolerance * max sone (sabs range + sabs target).
End Primitives.

(** [sign(double x)]: [(x < 0.0) ? -1.0 : 1.0]. *)
Definition sign (x : float) : float :=
  if (x <? 0)%float then (-1)%float else 1%float.

(** Laws of the comparisons.  Both instances satisfy them: on [double] the
    comparisons are a strict order and its preorder on the non-NaN values,
    and every comparison with NaN is false. *)
Class ScalarOrder (T : Type) `{Scalar T} : Prop := {
  sltb_irrefl : forall a : T, (a <? a)%sc = false;
  sltb_trans : forall a b c : T,
    (a <? b)%sc = true -> (b <? c)%sc = true -> (a <? c)%sc = true;
  sltb_sleb : forall a b : T, (a <? b)%sc = true -> (a <=? b)%sc = true;
  sleb_trans : forall a b c : T,
    (a <=? b)%sc = true -> (b <=? c)%sc = true -> (a <=? c)%sc = true;
  sleb_refl : forall a b : T,
    (a <=? b)%sc = true -> (a <=? a)%sc = true /\ (b <=? b)%sc = true
}.

(** The law of exact arithmetic the bisection step relies on: the midpoint of
    a non-empty bracket is strictly inside it.  It holds over the reals; on
    [double] the sum can overflow and adjacent values have no midpoint. *)
Class ExactMidpoint (T : Type) `{Scalar T} : Prop := {
  average_inside : forall a b : T,
    (a <? b)%sc = true ->
    (a <? average a b)%sc = true /\ (average a b <? b)%sc = true
}.

(** ** Callbacks with effects: a world-passing monad *)

(** The callbacks of the unit tests are closures that update captured
    variables ([evaluation_counter]) or print; [W] is what they act on. *)
Definition M (W A : Type) : Type := W -> A * W.

Definition ret {W A : Type} (a : A) : M W A := fun w => (a, w).

Definition bind {W A B : Type} (m : M W A) (k : A -> M W B) : M W B :=
  fun w => let (a, w') := m w in k a w'.

Notation "x <- m ;; k" := (bind m (fun x => k))
  (at level 61, m at next level, right associativity).

(** The three callbacks: domain value to state, state to range value, state
    to derivative. *)
Record callbacks (W St T : Type) : Type := {
  state_from_domain_value : T -> M W St;
  range_value_from_state : St -> M W T;
  derivative_value_from_state : St -> M W T
}.

(** ** The safeguarded inversion solver *)

(** The in/out triple of [invert_differentiable_function]. *)
Record solution (T : Type) : Type := {
  domain_value : T;
  range_value : T;
  derivative_value : T
}.

(** Modelled from the spec: the failures of [invert_differentiable_function]
    that are the solver's own (section 7); the callbacks of the model are
    total functions. *)
Inductive search_error : Type :=
| InvalidBracket
| NonConvergence.

(** Modelled from the spec: what one invocation of
    [invert_differentiable_function] ends with, the overwritten triple or a
    failure. *)
Inductive outcome (T : Type) : Type :=
| Returned (s : solution T)
| Failed (e : search_error).
Arguments Failed {T} e.

(** Modelled from the spec: the solver state of
    [invert_differentiable_function] (section 3), the bracket endpoints
    with their signed residuals, the current best point and the iteration
    count. *)
Record search_state (T : Type) : Type := {
  lower : T;
  lower_residual : T;
  upper : T;
  upper_residual : T;
  best : solution T;
  iteration : nat
}.

(** Modelled from the spec: the constants of [invert_differentiable_function]
    that the specification leaves open (section 9): the iteration cap, the
    rule by which a Newton step inside the bracket is judged to make
    adequate progress (it may also reject a derivative that is only near
    zero), and the width threshold under which the bracket counts as
    collapsed. *)
Record policy (T : Type) : Type := {
  maximum_iterations : nat;
  adequate_progress : search_state T -> T -> bool;
  width_collapsed : search_state T -> bool
}.

(** Modelled from the spec: how one round of [invert_differentiable_function]
    ends, with the next solver state or with the outcome of the call. *)
Inductive progress (T : Type) : Type :=
| Continue (st : search_state T)
| Stop (o : outcome T).

Section Solver.
Context {T : Type} `{Scalar T} {W St : Type}.
Variable pol : policy T.
Variable cbs : callbacks W St T.
Variable desired_range_value : T.
Variable tolerance : T.
Local Open Scope scalar_scope.

(** Modelled from the spec: the signed residual used by
    [invert_differentiable_function], range value minus target. *)
Definition residual (range : T) : T := range - desired_range_value.

(** Modelled from the spec: the sign test of [invert_differentiable_function].
    Two residuals share their sign when both or neither are negative; a
    zero residual counts as positive, as [sign] has it. *)
Definition shares_sign (a b : T) : bool :=
  Bool.eqb (a <? szero) (b <? szero).

(** Modelled from the spec: a candidate of [invert_differentiable_function]
    is admissible when strictly inside the open bracket. *)
Definition strictly_inside (st : search_state T) (x : T) : bool :=
  (lower st <? x) && (x <? upper st).

(** Modelled from the spec: step 3a of [invert_differentiable_function]
    ([p3a_search.hpp] is not among the sources), the Newton candidate
    [x - (range - target) / derivative]. *)
Definition newton_candidate (p : solution T) : T :=
  domain_value p - residual (range_value p) / derivative_value p.

(** Modelled from the spec: step 3b of [invert_differentiable_function].
    The Newton candidate is never taken from a zero-derivative point, and
    only if strictly inside the open bracket and of adequate progress;
    otherwise the bisection midpoint [average(lower, upper)].  A candidate
    step of either kind is accepted only if strictly inside the current
    bracket (section 3): a bracket whose midpoint is not strictly inside
    it cannot be narrowed any more and leaves no candidate. *)
Definition choose_candidate (st : search_state T) : option T :=
  let newton := newton_candidate (best st) in
  let bisection := average (lower st) (upper st) in
  if negb (derivative_value (best st) =? szero)
     && strictly_inside st newton && adequate_progress pol st newton
  then Some newton
  else if strictly_inside st bisection then Some bisection
  else None.

(** Modelled from the spec: step 3c of [invert_differentiable_function],
    the three callbacks on the candidate, the state being produced once and
    consumed twice (range, then derivative). *)
Definition evaluate (x : T) : M W (solution T) :=
  s <- state_from_domain_value cbs x ;;
  r <- range_value_from_state cbs s ;;
  d <- derivative_value_from_state cbs s ;;
  ret {| domain_value := x; range_value := r; derivative_value := d |}.

(** Modelled from the spec: step 3d of [invert_differentiable_function],
    the new point replaces the endpoint whose residual shares its sign and
    becomes the current best. *)
Definition update (st : search_state T) (p : solution T) : search_state T :=
  let r := residual (range_value p) in
  if shares_sign r (lower_residual st)
  then {| lower := domain_value p; lower_residual := r;
          upper := upper st; upper_residual := upper_residual st;
          best := p; iteration := S (iteration st) |}
  else {| lower := lower st; lower_residual := lower_residual st;
          upper := domain_value p; upper_residual := r;
          best := p; iteration := S (iteration st) |}.

(** Modelled from the spec: one round of step 3 (a to e) of
    [invert_differentiable_function].  The round stops with the new point
    when it is within tolerance or the bracket has collapsed, and with the
    current best when no candidate is left. *)
Definition step (st : search_state T) : M W (progress T) :=
  match choose_candidate st with
  | None => ret (Stop (Returned (best st)))
  | Some x =>
      p <- evaluate x ;;
      let st' := update st p in
      if are_close (range_value p) desired_range_value tolerance
      then ret (Stop (Returned p))
      else if width_collapsed pol st' then ret (Stop (Returned p))
      else ret (Continue st')
  end.

(** Modelled from the spec: the loop of step 3 of
    [invert_differentiable_function], bounded by the iteration cap; reaching
    the cap is [NonConvergence]. *)
Fixpoint iterate (fuel : nat) (st : search_state T) : M W (outcome T) :=
  match fuel with
  | O => ret (Failed NonConvergence)
  | S fuel' =>
      r <- step st ;;
      match r with
      | Stop o => ret o
      | Continue st' => iterate fuel' st'
      end
  end.

(** Modelled from the spec: steps 1 and 2 of [invert_differentiable_function],
    the bracket is the pair of domain bounds with their signed residuals
    and the current best is the supplied triple. *)
Definition initial_state (minimum_domain_value maximum_domain_value
    range_at_minimum_domain_value range_at_maximum_domain_value : T)
    (initial : solution T) : search_state T :=
  {| lower := minimum_domain_value;
     lower_residual := residual range_at_minimum_domain_value;
     upper := maximum_domain_value;
     upper_residual := residual range_at_maximum_domain_value;
     best := initial;
     iteration := 0 |}.

(** Modelled from the spec: [invert_differentiable_function] of
    [p3a_search.hpp], which is not among the sources; section 4.1 of the
    specification, steps 1 to 4, with the argument order of the calls in
    the unit tests.  An endpoint within tolerance is returned at once (the
    maximum bound with the derivative slot left as supplied, no derivative
    being known there); a target that the endpoint residuals do not bracket
    is [InvalidBracket]. *)
Definition invert_differentiable_function
    (minimum_domain_value maximum_domain_value
     range_at_minimum_domain_value range_at_maximum_domain_value : T)
    (initial : solution T) : M W (outcome T) :=
  if are_close range_at_minimum_domain_value desired_range_value tolerance
  then ret (Returned initial)
  else if are_close range_at_maximum_domain_value desired_range_value tolerance
  then ret (Returned {| domain_value := maximum_domain_value;
                        range_value := range_at_maximum_domain_value;
                        derivative_value := derivative_value initial |})
  else if shares_sign (residual range_at_minimum_domain_value)
                      (residual range_at_maximum_domain_value)
  then ret (Failed InvalidBracket)
  else iterate (maximum_iterations pol)
         (initial_state minimum_domain_value maximum_domain_value
            range_at_minimum_domain_value range_at_maximum_domain_value
            initial).

(** The bracketing invariant: the endpoint residuals have opposite signs
    (one is negative, the other is positive or zero). *)
Definition bracketed (st : search_state T) : Prop :=
  shares_sign (lower_residual st) (upper_residual st) = false.

(** The states the loop goes through: [reaches st0 w0 n st w] when [n]
    rounds from [st0] in the world [w0] all continued and led to [st] in the
    world [w]. *)
Inductive reaches (st0 : search_state T) (w0 : W) :
    nat -> search_state T -> W -> Prop :=
| reaches_start : reaches st0 w0 0 st0 w0
| reaches_round : forall n st w st' w',
    reaches st0 w0 n st w ->
    step st w = (Continue st', w') ->
    reaches st0 w0 (S n) st' w'.
End Solver.

(** A policy that accepts every Newton step inside the bracket and never
    declares the bracket collapsed. *)
Definition unrestricted {T : Type} (cap : nat) : policy T :=
  {| maximum_iterations := cap;
     adequate_progress := fun _ _ => true;
     width_collapsed := fun _ => false |}.

(** ** Observing the callbacks *)

(** A call of one of the three callbacks, with its argument. *)
Inductive call (St T : Type) : Type :=
| CallState (x : T)
| CallRange (s : St)
| CallDerivative (s : St).
Arguments CallState {St T} x.
Arguments CallRange {St T} s.
Arguments CallDerivative {St T} s.

(** Pure callbacks made to record every call in a log. *)
Definition logged {St T : Type} (f : T -> St) (g h : St -> T) :
    callbacks (list (call St T)) St T :=
  {| state_from_domain_value := fun x log => (f x, log ++ [CallState x]);
     range_value_from_state := fun s log => (g s, log ++ [CallRange s]);
     derivative_value_from_state :=
       fun s log => (h s, log ++ [CallDerivative s]) |}.

(** The calls one candidate gives rise to. *)
Definition calls_of {St T : Type} (f : T -> St) (x : T) : list (call St T) :=
  [CallState x; CallRange (f x); CallDerivative (f x)].

(** The domain values passed to the first callback, in order. *)
Fixpoint evaluated_points {St T : Type} (log : list (call St T)) : list T :=
  match log with
  | [] => []
  | CallState x :: log' => x :: evaluated_points log'
  | _ :: log' => evaluated_points log'
  end.

(** ** The unit tests *)

(** [TEST(search, invert_linear)]: the world is [evaluation_counter]. *)
Definition linear_callbacks : callbacks nat float float :=
  {| state_from_domain_value := fun x counter => (x, S counter);
     range_value_from_state := fun x => ret x;
     derivative_value_from_state := fun _ => ret 1%float |}.

Definition invert_linear (pol : policy float) : M nat (outcome float) :=
  let desired_range_value := 0.3%float in
  let tolerance := 1.0e-6%float in
  let minimum_domain_value := 0.0%float in
  let maximum_domain_value := 1.0%float in
  minimum_domain_state <-
    state_from_domain_value linear_callbacks minimum_domain_value ;;
  range_at_minimum_domain_value <-
    range_value_from_state linear_callbacks minimum_domain_state ;;
  maximum_domain_state <-
    state_from_domain_value linear_callbacks maximum_domain_value ;;
  range_at_maximum_domain_value <-
    range_value_from_state linear_callbacks maximum_domain_state ;;
  derivative <-
    derivative_value_from_state linear_callbacks minimum_domain_state ;;
  invert_differentiable_function pol linear_callbacks
    desired_range_value tolerance
    minimum_domain_value maximum_domain_value
    range_at_minimum_domain_value range_at_maximum_domain_value
    {| domain_value := minimum_domain_value;
       range_value := range_at_minimum_domain_value;
       derivative_value := derivative |}.

(** What the callbacks of [TEST(search, invert_cosine)] print, without the
    formatting of [printf]. *)
Inductive printed : Type :=
| evaluating_state (x : float)
| giving_range_value (result x : float)
| giving_derivative_value (result x : float).

(** The world of [TEST(search, invert_cosine)]: [evaluation_counter] and the
    standard output. *)
Record test_world : Type := {
  evaluation_counter : nat;
  standard_output : list printed
}.

Definition printf (line : printed) (w : test_world) : test_world :=
  {| evaluation_counter := evaluation_counter w;
     standard_output := standard_output w ++ [line] |}.

Section CosineTest.
(** [std::cos] and [std::sin] are functions of the C library, whose results
    on [double] neither the language nor [SpecFloat] fixes, and
    [p3a::pi_value<double>()] is declared in [p3a_constants.hpp], which is
    not among the sources: the three are parameters. *)
Variables std_cos std_sin : float -> float.
Variable pi_value : float.

(** The callbacks of [TEST(search, invert_cosine)], on [double]. *)
Definition cosine_callbacks : callbacks test_world float float :=
  {| state_from_domain_value := fun x w =>
       (x, printf (evaluating_state x)
             {| evaluation_counter := S (evaluation_counter w);
                standard_output := standard_output w |});
     range_value_from_state := fun x w =>
       let result := std_cos x in
       (result, printf (giving_range_value result x) w);
     derivative_value_from_state := fun x w =>
       let result := (- std_sin x)%float in
       (result, printf (giving_derivative_value result x) w) |}.

(** [TEST(search, invert_cosine)] up to the call of the solver; the closing
    [printf] of the triple is left out. *)
Definition invert_cosine (pol : policy float) :
    M test_world (outcome float) :=
  let desired_range_value := 0.3%float in
  let tolerance := 1.0e-6%float in
  let minimum_domain_value := 0.0%float in
  let maximum_domain_value := pi_value in
  minimum_domain_state <-
    state_from_domain_value cosine_callbacks minimum_domain_value ;;
  range_at_minimum_domain_value <-
    range_value_from_state cosine_callbacks minimum_domain_state ;;
  maximum_domain_state <-
    state_from_domain_value cosine_callbacks maximum_domain_value ;;
  range_at_maximum_domain_value <-
    range_value_from_state cosine_callbacks maximum_domain_state ;;
  derivative <-
    derivative_value_from_state cosine_callbacks minimum_domain_state ;;
  invert_differentiable_function pol cosine_callbacks
    desired_range_value tolerance
    minimum_domain_value maximum_domain_value
    range_at_minimum_domain_value range_at_maximum_domain_value
    {| domain_value := minimum_domain_value;
       range_value := range_at_minimum_domain_value;
       derivative_value := derivative |}.
End CosineTest.

(** Adversarial callbacks: the derivative is always reported zero and the
    range value is the same everywhere, whatever the bracket says; the world
    counts the evaluations. *)
Definition adversarial_callbacks {T : Type} `{Scalar T} (range : T) :
    callbacks nat T T :=
  {| state_from_domain_value := fun x counter => (x, S counter);
     range_value_from_state := fun _ => ret range;
     derivative_value_from_state := fun _ => ret szero |}.

(** ** Predicates used to state the properties of the solver *)

Section Predicates.
Context {T : Type} `{Scalar T}.
Local Open Scope scalar_scope.

(** [st'] is [st] with exactly one endpoint replaced by the point [p]: the
    endpoint whose residual shares the sign of the residual of [p]; the
    other endpoint is kept. *)
Definition replaces_one_endpoint (desired_range_value : T)
    (st st' : search_state T) (p : solution T) : Prop :=
  let r := residual desired_range_value (range_value p) in
  (shares_sign r (lower_residual st) = true /\
   lower st' = domain_value p /\ lower_residual st' = r /\
   upper st' = upper st /\ upper_residual st' = upper_residual st) \/
  (shares_sign r (upper_residual st) = true /\
   upper st' = domain_value p /\ upper_residual st' = r /\
   lower st' = lower st /\ lower_residual st' = lower_residual st).

(** [x] lies in the closed interval of the domain bounds. *)
Definition within_bounds (minimum_domain_value maximum_domain_value x : T) :
    bool :=
  (minimum_domain_value <=? x) && (x <=? maximum_domain_value).

(** The bracket and the current best point lie within the domain bounds. *)
Definition bounds_invariant (minimum_domain_value maximum_domain_value : T)
    (st : search_state T) : Prop :=
  (minimum_domain_value <=? lower st) = true /\
  (upper st <=? maximum_domain_value) = true /\
  within_bounds minimum_domain_value maximum_domain_value
    (domain_value (best st)) = true.

(** The bracket is a non-empty open interval. *)
Definition nonempty (st : search_state T) : Prop :=
  (lower st <? upper st) = true.
End Predicates.

(** ** More of the numeric header *)

Section MorePrimitives.
Context {T : Type} `{Scalar T}.
Local Open Scope scalar_scope.

(** [square(a)]: [a * a]. *)
Definition square (a : T) : T := a * a.

(** [cube(a)]: [a * a * a]. *)
Definition cube (a : T) : T := a * a * a.

(** [minimum(a, b)]: [condition(b < a, b, a)]. *)
Definition minimum (a b : T) : T := condition (b <? a) b a.

(** [linear_interpolation(a, b, t)]: [a + t * (b - a)]. *)
Definition linear_interpolation (a b t : T) : T := a + t * (b - a).

(** [compare(a, b)]: [std::abs(a - b) <= T(2.0) * epsilon_value<T>()].  The
    constant [epsilon_value] is declared in [p3a_constants.hpp], which is
    not among the sources: it is a parameter. *)
Definition compare (epsilon a b : T) : bool :=
  sabs (a - b) <=? stwo * epsilon.

(** [sin_x_over_x(x)].  [sqrt] and [sin] are the library functions of the
    value type, [six] is [T(6.0)] and [epsilon] is [epsilon_value<T>()];
    [y > e] is [e < y]. *)
Definition sin_x_over_x (scalar_sqrt scalar_sin : T -> T) (six epsilon : T)
    (x : T) : T :=
  let y := sabs x in
  let e2 := scalar_sqrt epsilon in
  let e4 := scalar_sqrt e2 in
  if e4 <? y then scalar_sin y / y
  else if e2 <? y then sone - (y * y) / six
  else sone.
End MorePrimitives.

(** The range of [int]: [INT_MIN] and [INT_MAX] of a 32-bit two's
    complement integer. *)
Definition int_min : Z := (- 2 ^ 31)%Z.
Definition int_max : Z := (2 ^ 31 - 1)%Z.

Definition in_int (z : Z) : bool := (int_min <=? z)%Z && (z <=? int_max)%Z.

(** [ceildiv(a, b)] at [T = int]: [(a / b) + ((a % b) ? 1 : 0)], where [/]
    truncates towards zero and [%] is its remainder.  [None] stands for
    undefined behaviour: division by zero, [INT_MIN / -1], and a sum out of
    the range of [int]. *)
Definition ceildiv (a b : Z) : option Z :=
  if (b =? 0)%Z then None
  else if (a =? int_min)%Z && (b =? -1)%Z then None
  else
    let r := (Z.quot a b + (if (Z.rem a b =? 0)%Z then 0 else 1))%Z in
    if in_int r then Some r else None.

(** [q] is the least integer not below the exact quotient of [a] by [b]. *)
Definition is_ceiling (a b q : Z) : Prop :=
  (0 < b /\ (q - 1) * b < a <= q * b)%Z \/
  (b < 0 /\ q * b <= a < (q - 1) * b)%Z.

(** A pointer into an array: the array and the index pointed to. *)
Record pointer (A : Type) : Type := {
  array : list A;
  position : Z
}.

(** The element [ptr[offset]] designates, when it is one of the array. *)
Definition element {A : Type} (ptr : pointer A) (offset : Z) : option nat :=
  let i := (position ptr + offset)%Z in
  if (0 <=? i)%Z && (i <? Z.of_nat (length (array ptr)))%Z
  then Some (Z.to_nat i) else None.

(** [load(ptr, offset)] and [load_scalar(ptr, offset)]: [ptr[offset]];
    [None] outside the array. *)
Definition load {A : Type} (ptr : pointer A) (offset : Z) : option A :=
  match element ptr offset with
  | Some i => nth_error (array ptr) i
  | None => None
  end.

Definition load_scalar {A : Type} (ptr : pointer A) (offset : Z) : option A :=
  load ptr offset.

(** [store(value, ptr, offset)]: [ptr[offset] = value]; the array after
    the assignment, [None] outside the array. *)
Definition store {A : Type} (value : A) (ptr : pointer A) (offset : Z) :
    option (pointer A) :=
  match element ptr offset with
  | Some i =>
      Some {| array := firstn i (array ptr) ++ value :: skipn (S i) (array ptr);
              position := position ptr |}
  | None => None
  end.

Unset Implicit Arguments.

(** * Properties *)

(** ** Facts about the binary64 specification *)

Section SpecFloatFacts.
Variables prec emax : Z.

(** The sign given to the rounding functions only labels their result. *)
Lemma SFabs_binary_round_aux (s s' : bool) (m e : Z) (l : location) :
  SFabs (binary_round_aux prec emax s m e l) =
  SFabs (binary_round_aux prec emax s' m e l).
Proof.
  unfold binary_round_aux.
  destruct (shr_fexp prec emax m e l) as [mrs e1].
  destruct (shr_fexp prec emax _ e1 loc_Exact) as [mrs' e2].
  destruct (shr_m mrs'); try reflexivity.
  destruct (Z.leb e2 (Z.sub emax prec)); reflexivity.
Qed.

Lemma SFabs_binary_round (s s' : bool) (m : positive) (e : Z) :
  SFabs (binary_round prec emax s m e) = SFabs (binary_round prec emax s' m e).
Proof.
  unfold binary_round.
  destruct (shl_align m e _) as [mz ez].
  apply SFabs_binary_round_aux.
Qed.

Lemma SFabs_binary_normalize_opp (m e : Z) (z : bool) :
  SFabs (binary_normalize prec emax (- m) e z) =
  SFabs (binary_normalize prec emax m e z).
Proof.
  destruct m; simpl; try reflexivity; apply SFabs_binary_round.
Qed.

Lemma SFabs_SFsub_swap (x y : spec_float) :
  SFabs (SFsub prec emax x y) = SFabs (SFsub prec emax y x).
Proof.
  destruct x as [sx|sx| |sx mx ex], y as [sy|sy| |sy my ey];
    try (destruct sx); try (destruct sy); try reflexivity.
  all: unfold SFsub; rewrite (Z.min_comm ey ex);
    rewrite <- SFabs_binary_normalize_opp; f_equal; f_equal; lia.
Qed.

Lemma SFadd_comm (x y : spec_float) :
  SFadd prec emax x y = SFadd prec emax y x.
Proof.
  destruct x as [sx|sx| |sx mx ex], y as [sy|sy| |sy my ey];
    try (destruct sx); try (destruct sy); try reflexivity.
  all: unfold SFadd; rewrite (Z.min_comm ey ex); f_equal; lia.
Qed.

(** Rounding a non-negative mantissa never produces NaN. *)
Lemma shr_1_nonneg (mrs : shr_record) :
  (0 <= shr_m mrs)%Z -> (0 <= shr_m (shr_1 mrs))%Z.
Proof.
  destruct mrs as [m r s]; simpl.
  destruct m as [|p|p]; try destruct p; simpl; lia.
Qed.

Lemma iter_pos_shr_1_nonneg (n : positive) (mrs : shr_record) :
  (0 <= shr_m mrs)%Z -> (0 <= shr_m (SpecFloat.iter_pos shr_1 n mrs))%Z.
Proof.
  revert mrs; induction n as [n IH|n IH|]; intros mrs Hm; simpl.
  - apply IH, IH, shr_1_nonneg, Hm.
  - apply IH, IH, Hm.
  - apply shr_1_nonneg, Hm.
Qed.

Lemma shr_fexp_nonneg (m e : Z) (l : location) :
  (0 <= m)%Z -> (0 <= shr_m (fst (shr_fexp prec emax m e l)))%Z.
Proof.
  intros Hm. unfold shr_fexp, shr.
  assert (H0 : (0 <= shr_m (shr_record_of_loc m l))%Z)
    by (destruct l as [|[]]; exact Hm).
  destruct (Z.sub _ e); simpl; try exact H0.
  apply iter_pos_shr_1_nonneg, H0.
Qed.

Lemma round_nearest_even_nonneg (m : Z) (l : location) :
  (0 <= m)%Z -> (0 <= round_nearest_even m l)%Z.
Proof.
  intros Hm. destruct l as [|[]]; simpl; try lia.
  destruct (Z.even m); lia.
Qed.

Lemma binary_round_aux_not_nan (s : bool) (m e : Z) (l : location) :
  (0 <= m)%Z -> binary_round_aux prec emax s m e l <> S754_nan.
Proof.
  intros Hm. unfold binary_round_aux.
  pose proof (shr_fexp_nonneg m e l Hm) as H1.
  destruct (shr_fexp prec emax m e l) as [mrs e1]; simpl in H1.
  pose proof (shr_fexp_nonneg _ e1 loc_Exact
    (round_nearest_even_nonneg _ (loc_of_shr_record mrs) H1)) as H2.
  destruct (shr_fexp prec emax _ e1 loc_Exact) as [mrs' e2]; simpl in H2.
  destruct (shr_m mrs') as [|p|p]; try discriminate; try lia.
  destruct (Z.leb e2 (Z.sub emax prec)); discriminate.
Qed.

Lemma binary_round_not_nan (s : bool) (m : positive) (e : Z) :
  binary_round prec emax s m e <> S754_nan.
Proof.
  unfold binary_round; destruct (shl_align m e _) as [mz ez].
  apply binary_round_aux_not_nan; lia.
Qed.

(** A sum of two absolute values is NaN only from a NaN operand. *)
Lemma SFadd_abs_nan (x y : spec_float) :
  SFadd prec emax (SFabs x) (SFabs y) = S754_nan ->
  x = S754_nan \/ y = S754_nan.
Proof.
  destruct x as [sx|sx| |sx mx ex], y as [sy|sy| |sy my ey]; simpl;
    try discriminate; auto.
  intros E; exfalso; revert E; apply binary_round_not_nan.
Qed.

Lemma SFsub_nan_l (y : spec_float) : SFsub prec emax S754_nan y = S754_nan.
Proof. destruct y; reflexivity. Qed.

Lemma SFsub_nan_r (x : spec_float) : SFsub prec emax x S754_nan = S754_nan.
Proof. destruct x; reflexivity. Qed.

(** *** The comparisons *)

Lemma SFcompare_refl (x : spec_float) :
  x <> S754_nan -> SFcompare x x = Some Eq.
Proof.
  destruct x as [s|s| |s m e]; try destruct s; simpl; try congruence.
  all: intros _; rewrite Z.compare_refl, ?Pos.compare_cont_refl; reflexivity.
Qed.

Lemma SFltb_irrefl (x : spec_float) : SFltb x x = false.
Proof.
  unfold SFltb. destruct x as [s|s| |s m e]; try destruct s; simpl;
    try reflexivity.
  all: rewrite Z.compare_refl, ?Pos.compare_cont_refl; reflexivity.
Qed.

Lemma SFltb_SFleb (x y : spec_float) : SFltb x y = true -> SFleb x y = true.
Proof.
  unfold SFltb, SFleb. destruct (SFcompare x y) as [[]|]; congruence.
Qed.

Lemma SFleb_refl_of (x y : spec_float) :
  SFleb x y = true -> SFleb x x = true /\ SFleb y y = true.
Proof.
  intros Hxy. unfold SFleb.
  assert (x <> S754_nan /\ y <> S754_nan) as [Hx Hy].
  { split; intros E; subst; [destruct y | destruct x]; discriminate. }
  rewrite !SFcompare_refl by assumption. auto.
Qed.

Ltac compare_cases :=
  repeat match goal with
  | |- context [Z.compare ?a ?b] => destruct (Z.compare_spec a b)
  | |- context [Pos.compare_cont Eq ?a ?b] =>
      change (Pos.compare_cont Eq a b) with (Pos.compare a b);
      destruct (Pos.compare_spec a b)
  | H : context [Z.compare ?a ?b] |- _ => destruct (Z.compare_spec a b)
  | H : context [Pos.compare_cont Eq ?a ?b] |- _ =>
      change (Pos.compare_cont Eq a b) with (Pos.compare a b) in H;
      destruct (Pos.compare_spec a b)
  end; simpl in *; try reflexivity; try discriminate; try lia.

Lemma SFltb_trans (x y z : spec_float) :
  SFltb x y = true -> SFltb y z = true -> SFltb x z = true.
Proof.
  unfold SFltb.
  destruct x as [sx|sx| |sx mx ex], y as [sy|sy| |sy my ey],
    z as [sz|sz| |sz mz ez];
    try destruct sx; try destruct sy; try destruct sz; simpl;
    try reflexivity; try discriminate.
  all: intros H1 H2; compare_cases.
Qed.

Lemma SFleb_trans (x y z : spec_float) :
  SFleb x y = true -> SFleb y z = true -> SFleb x z = true.
Proof.
  unfold SFleb.
  destruct x as [sx|sx| |sx mx ex], y as [sy|sy| |sy my ey],
    z as [sz|sz| |sz mz ez];
    try destruct sx; try destruct sy; try destruct sz; simpl;
    try reflexivity; try discriminate.
  all: intros H1 H2; compare_cases.
Qed.
End SpecFloatFacts.

(** ** Facts about [double] *)

Lemma double_abs_sub_swap (a b : float) :
  PrimFloat.abs (a - b) = PrimFloat.abs (b - a).
Proof.
  apply Prim2SF_inj. rewrite !abs_spec, !sub_spec.
  apply SFabs_SFsub_swap.
Qed.

Lemma double_add_comm (a b : float) : (a + b = b + a)%float.
Proof.
  apply Prim2SF_inj. rewrite !add_spec. apply SFadd_comm.
Qed.

Lemma double_leb_nan_l (x y : float) :
  Prim2SF x = S754_nan -> (x <=? y)%float = false.
Proof. intros E. rewrite leb_spec, E. reflexivity. Qed.

Lemma double_leb_nan_r (x y : float) :
  Prim2SF y = S754_nan -> (x <=? y)%float = false.
Proof.
  intros E. rewrite leb_spec, E. unfold SFleb.
  destruct (Prim2SF x); reflexivity.
Qed.

Lemma double_mul_nan_r (x y : float) :
  Prim2SF y = S754_nan -> Prim2SF (x * y) = S754_nan.
Proof.
  intros E. rewrite mul_spec, E. unfold SF64mul.
  destruct (Prim2SF x); reflexivity.
Qed.

(** A sum of absolute values that is NaN has a NaN operand, and then the
    difference of the operands is NaN as well. *)
Lemma double_scale_nan (a b : float) :
  Prim2SF (PrimFloat.abs a + PrimFloat.abs b) = S754_nan ->
  Prim2SF (PrimFloat.abs (a - b)) = S754_nan.
Proof.
  rewrite add_spec, !abs_spec, sub_spec. intros E.
  destruct (SFadd_abs_nan _ _ _ _ E) as [-> | ->]; unfold SF64sub.
  - rewrite SFsub_nan_l. reflexivity.
  - rewrite SFsub_nan_r. reflexivity.
Qed.

(** Two values that neither comparison separates are equal, unless one of
    them is NaN; [1.0] is not. *)
Lemma double_not_lt_one (s : float) :
  (s <? 1)%float = false -> (1 <? s)%float = false ->
  s = 1%float \/ Prim2SF s = S754_nan.
Proof.
  rewrite !ltb_spec. unfold SFltb.
  change (Prim2SF 1) with (S754_finite false 4503599627370496 (-52)).
  intros H1 H2.
  destruct (Prim2SF s) as [sg|sg| |sg m e] eqn:E; try (right; reflexivity);
    try (destruct sg; discriminate).
  left. apply Prim2SF_inj. rewrite E.
  change (Prim2SF 1) with (S754_finite false 4503599627370496 (-52)).
  destruct sg; try discriminate. cbn [SFcompare] in H1, H2.
  destruct (Z.compare_spec e (-52)) as [He|He|He]; try discriminate H1.
  - subst e. rewrite Z.compare_refl in H2.
    pose proof (Pos.compare_spec m 4503599627370496) as Hc.
    pose proof (Pos.compare_antisym m 4503599627370496) as Ha.
    unfold Pos.compare in Hc, Ha.
    destruct Hc as [Hm|Hm|Hm]; try discriminate H1.
    + subst m. reflexivity.
    + rewrite Ha in H2. discriminate H2.
  - rewrite (proj2 (Z.compare_lt_iff _ _) He) in H2. discriminate H2.
Qed.

#[export] Instance double_order : @ScalarOrder float double.
Proof.
  split; simpl.
  - intros a. rewrite ltb_spec. apply SFltb_irrefl.
  - intros a b c. rewrite !ltb_spec. apply SFltb_trans.
  - intros a b. rewrite ltb_spec, leb_spec. apply SFltb_SFleb.
  - intros a b c. rewrite !leb_spec. apply SFleb_trans.
  - intros a b. rewrite !leb_spec. apply SFleb_refl_of.
Qed.

(** ** Facts about the reals as scalars *)

Lemma Rltb_true (x y : R) : Rltb x y = true <-> (x < y)%R.
Proof. unfold Rltb. destruct (Rlt_dec x y); split; congruence || tauto. Qed.

Lemma Rltb_false (x y : R) : Rltb x y = false <-> (y <= x)%R.
Proof.
  unfold Rltb. destruct (Rlt_dec x y); split; try congruence; lra.
Qed.

Lemma Rleb_true (x y : R) : Rleb x y = true <-> (x <= y)%R.
Proof. unfold Rleb. destruct (Rle_dec x y); split; congruence || tauto. Qed.

Lemma Rleb_false (x y : R) : Rleb x y = false <-> (y < x)%R.
Proof.
  unfold Rleb. destruct (Rle_dec x y); split; try congruence; lra.
Qed.

Lemma Reqb_true (x y : R) : Reqb x y = true <-> x = y.
Proof. unfold Reqb. destruct (Req_dec_T x y); split; congruence || tauto. Qed.

#[export] Instance real_order : @ScalarOrder R real.
Proof.
  split; simpl.
  - intros a. apply Rltb_false. lra.
  - intros a b c. rewrite !Rltb_true. lra.
  - intros a b. rewrite Rltb_true, Rleb_true. lra.
  - intros a b c. rewrite !Rleb_true. lra.
  - intros a b. rewrite !Rleb_true. lra.
Qed.

#[export] Instance real_midpoint : @ExactMidpoint R real.
Proof.
  split. intros a b. unfold average. simpl. rewrite !Rltb_true. lra.
Qed.

(** ** The closeness test and the sign *)

(** In exact arithmetic [p3a::max] is the maximum of the two numbers. *)
Lemma max_real (x y : R) : max x y = Rmax x y.
Proof.
  unfold max, Rmax; simpl. unfold Rltb.
  destruct (Rlt_dec x y), (Rle_dec x y); try reflexivity; lra.
Qed.

Lemma are_close_real (a b t : R) :
  are_close a b t = true <->
  (Rabs (b - a) <= t * Rmax (Rabs a + Rabs b) 1)%R.
Proof.
  unfold are_close. rewrite max_real. simpl. apply Rleb_true.
Qed.

Lemma are_close_double (a b t : float) :
  are_close a b t = within_tolerance a b t.
Proof.
  unfold are_close, within_tolerance, max; simpl.
  rewrite (double_abs_sub_swap b a).
  set (s := (PrimFloat.abs a + PrimFloat.abs b)%float).
  destruct (s <? 1)%float eqn:H1, (1 <? s)%float eqn:H2; try reflexivity.
  - pose proof (sltb_trans (T := float) s 1%float s H1 H2) as H3.
    rewrite (sltb_irrefl (T := float)) in H3. discriminate H3.
  - destruct (double_not_lt_one s H1 H2) as [-> | Hnan]; [reflexivity|].
    rewrite (double_leb_nan_r _ _ (double_mul_nan_r t s Hnan)).
    symmetry. apply double_leb_nan_l, double_scale_nan, Hnan.
Qed.

(** C1.  The closeness test is the tolerance predicate of the
    specification: on [double], [are_close range target tolerance] is
    [|range - target| <= tolerance * max(1, |range| + |target|)] computed in
    binary64, whatever the arguments (infinities and NaN included); in exact
    arithmetic it holds exactly when
    [|b - a| <= t * max(|a| + |b|, 1)] does over the reals. *)
Theorem are_close_is_tolerance_predicate :
  (forall range target tolerance : float,
     are_close range target tolerance = true <->
     within_tolerance range target tolerance = true) /\
  (forall a b t : R,
     are_close a b t = true <->
     (Rabs (b - a) <= t * Rmax (Rabs a + Rabs b) 1)%R).
Proof.
  split.
  - intros range target tolerance. rewrite are_close_double. tauto.
  - exact are_close_real.
Qed.

(** C9.  The closeness test is symmetric in the two values it compares, on
    [double] and in exact arithmetic. *)
Theorem are_close_symmetric :
  (forall a b t : float, are_close a b t = are_close b a t) /\
  (forall a b t : R, are_close a b t = are_close b a t).
Proof.
  split; intros a b t; unfold are_close; simpl.
  - rewrite (double_abs_sub_swap b a).
    rewrite (double_add_comm (PrimFloat.abs a) (PrimFloat.abs b)).
    reflexivity.
  - rewrite (Rabs_minus_sym b a), (Rplus_comm (Rabs a) (Rabs b)).
    reflexivity.
Qed.

Lemma double_nonneg_not_neg (x : float) :
  (0 <=? x)%float = true -> (x <? 0)%float = false.
Proof.
  rewrite leb_spec, ltb_spec. unfold SFleb, SFltb.
  change (Prim2SF 0) with (S754_zero false).
  destruct (Prim2SF x) as [s|s| |s m e]; try destruct s; simpl;
    congruence.
Qed.

(** C10.  [sign] is [1.0] on every [x >= 0] and [-1.0] on every [x < 0];
    both zeros get [1.0]. *)
Theorem sign_of_nonnegative_and_negative :
  forall x : float,
    ((0 <=? x)%float = true -> sign x = 1%float) /\
    ((x <? 0)%float = true -> sign x = (-1)%float) /\
    sign 0%float = 1%float /\ sign (-0)%float = 1%float.
Proof.
  intros x. unfold sign. repeat split.
  - intros Hx. rewrite (double_nonneg_not_neg x Hx). reflexivity.
  - intros Hx. rewrite Hx. reflexivity.
Qed.

(** NaN is neither: it gets [1.0], as every value that is not negative. *)
Example sign_nan : sign nan = 1%float.
Proof. reflexivity. Qed.

(** [sign] takes two values only, so comparing the negativity of two
    residuals is comparing their [sign]. *)
Lemma shares_sign_sign (a b : float) :
  shares_sign a b = true <-> sign a = sign b.
Proof.
  unfold shares_sign, sign; simpl.
  assert (Hne : 1%float <> (-1)%float).
  { intros E. apply (f_equal (fun x => PrimFloat.ltb x 0)) in E.
    vm_compute in E. discriminate E. }
  destruct (a <? 0)%float, (b <? 0)%float; simpl; split; intros E;
    try reflexivity; try discriminate E; exfalso; apply Hne; congruence.
Qed.

(** The two-argument [maximum] and [p3a::max] are the same function. *)
Lemma maximum_eq_max {T : Type} {ops : Scalar T} (a b : T) :
  maximum a b = max a b.
Proof. reflexivity. Qed.

(** On [double] both sides of the inequality are computed in binary64: an
    infinity is within tolerance of every number at any positive tolerance,
    and so are two finite values whose difference overflows. *)
Example are_close_infinity :
  are_close infinity 0.1%float 1.0e-6%float = true.
Proof. reflexivity. Qed.

Example are_close_overflow :
  are_close 1e308%float (-1e308)%float 1.0e-6%float = true.
Proof. reflexivity. Qed.

(** [average] overflows where the sum does. *)
Example average_overflow :
  average 1e308%float 1.7e308%float = infinity.
Proof. reflexivity. Qed.

(** ** The solver: one round *)

Section SolverFacts.
Context {T : Type} {ops : Scalar T} {W St : Type}.
Variable pol : policy T.
Variable cbs : callbacks W St T.
Variables target tol : T.
Local Open Scope scalar_scope.

Lemma evaluate_domain (x : T) (w : W) :
  domain_value (fst (evaluate cbs x w)) = x.
Proof.
  unfold evaluate, bind, ret.
  destruct (state_from_domain_value cbs x w) as [s w1].
  destruct (range_value_from_state cbs s w1) as [r w2].
  destruct (derivative_value_from_state cbs s w2) as [d w3].
  reflexivity.
Qed.

Lemma choose_candidate_inside (st : search_state T) (x : T) :
  choose_candidate pol target st = Some x -> strictly_inside st x = true.
Proof.
  unfold choose_candidate.
  destruct (negb _ && strictly_inside st (newton_candidate target (best st))
            && _) eqn:E.
  - intros [= <-]. apply andb_true_iff in E as [E _].
    apply andb_true_iff in E as [_ E]. exact E.
  - destruct (strictly_inside st (average (lower st) (upper st))) eqn:E2;
      intros [= <-]. exact E2.
Qed.

(** A point with a zero derivative gets a bisection step. *)
Lemma choose_candidate_zero_derivative (st : search_state T) :
  (derivative_value (best st) =? szero) = true ->
  choose_candidate pol target st =
  if strictly_inside st (average (lower st) (upper st))
  then Some (average (lower st) (upper st)) else None.
Proof.
  intros E. unfold choose_candidate. rewrite E. reflexivity.
Qed.

Lemma step_continue (st st' : search_state T) (w w' : W) :
  step pol cbs target tol st w = (Continue st', w') ->
  exists x p,
    choose_candidate pol target st = Some x /\
    evaluate cbs x w = (p, w') /\ domain_value p = x /\
    st' = update target st p /\
    are_close (range_value p) target tol = false /\
    width_collapsed pol st' = false.
Proof.
  unfold step.
  destruct (choose_candidate pol target st) as [x|] eqn:Ec;
    [|discriminate].
  unfold bind. pose proof (evaluate_domain x w) as Hd.
  destruct (evaluate cbs x w) as [p w1] eqn:Ee; simpl in Hd.
  destruct (are_close (range_value p) target tol) eqn:Ea; [discriminate|].
  destruct (width_collapsed pol (update target st p)) eqn:Ew;
    [discriminate|].
  unfold ret. intros [= <- <-]. exists x, p. repeat split; assumption.
Qed.

Lemma step_stop (st : search_state T) (o : outcome T) (w w' : W) :
  step pol cbs target tol st w = (Stop o, w') ->
  (choose_candidate pol target st = None /\
   o = Returned (best st) /\ w' = w) \/
  (exists x p,
     choose_candidate pol target st = Some x /\
     evaluate cbs x w = (p, w') /\ domain_value p = x /\
     o = Returned p /\
     (are_close (range_value p) target tol = true \/
      width_collapsed pol (update target st p) = true)).
Proof.
  unfold step.
  destruct (choose_candidate pol target st) as [x|] eqn:Ec.
  - unfold bind. pose proof (evaluate_domain x w) as Hd.
    destruct (evaluate cbs x w) as [p w1] eqn:Ee; simpl in Hd.
    destruct (are_close (range_value p) target tol) eqn:Ea;
      [|destruct (width_collapsed pol (update target st p)) eqn:Ew];
      unfold ret; intros [= <- <-]; right; exists x, p; auto 8.
  - unfold ret. intros [= <- <-]. left. auto.
Qed.

(** *** The bracketing invariant *)

Lemma update_best (st : search_state T) (p : solution T) :
  best (update target st p) = p.
Proof. unfold update. destruct (shares_sign _ _); reflexivity. Qed.

Lemma shares_sign_third (a b c : T) :
  shares_sign a b = false -> shares_sign b c = false ->
  shares_sign a c = true.
Proof.
  unfold shares_sign.
  destruct (a <? szero), (b <? szero), (c <? szero); simpl; congruence.
Qed.

Lemma shares_sign_trans_false (a b c : T) :
  shares_sign a b = true -> shares_sign b c = false ->
  shares_sign a c = false.
Proof.
  unfold shares_sign.
  destruct (a <? szero), (b <? szero), (c <? szero); simpl; congruence.
Qed.

Lemma shares_sign_sym (a b : T) : shares_sign a b = shares_sign b a.
Proof.
  unfold shares_sign. destruct (a <? szero), (b <? szero); reflexivity.
Qed.

Lemma update_bracketed (st : search_state T) (p : solution T) :
  bracketed st ->
  bracketed (update target st p) /\
  replaces_one_endpoint target st (update target st p) p.
Proof.
  unfold bracketed, replaces_one_endpoint, update. intros Hb.
  destruct (shares_sign (residual target (range_value p))
              (lower_residual st)) eqn:E; simpl.
  - split; [|left; auto 6].
    apply shares_sign_trans_false with (lower_residual st); assumption.
  - split.
    + rewrite shares_sign_sym. exact E.
    + right. repeat split.
      apply shares_sign_third with (lower_residual st); assumption.
Qed.

(** The iteration count of the state is the number of rounds run. *)
Lemma reaches_iteration (st0 st : search_state T) (w0 w : W) (n : nat) :
  reaches pol cbs target tol st0 w0 n st w ->
  iteration st = (iteration st0 + n)%nat.
Proof.
  intros Hr. induction Hr as [|n st w st' w' Hr IH Hs]; [lia|].
  apply step_continue in Hs as (x & p & _ & _ & _ & -> & _).
  unfold update. destruct (shares_sign _ _); simpl; lia.
Qed.

Lemma reaches_bracketed (st0 st : search_state T) (w0 w : W) (n : nat) :
  bracketed st0 ->
  reaches pol cbs target tol st0 w0 n st w -> bracketed st.
Proof.
  intros H0 Hr. induction Hr as [|n st w st' w' Hr IH Hs]; [exact H0|].
  apply step_continue in Hs as (x & p & _ & _ & _ & -> & _).
  apply update_bracketed, IH.
Qed.
End SolverFacts.


(** In exact arithmetic the invariant says that the target lies between
    the range values at the two endpoints. *)
Lemma bracketed_real (st : search_state R) :
  bracketed st <->
  (lower_residual st < 0 <= upper_residual st)%R \/
  (upper_residual st < 0 <= lower_residual st)%R.
Proof.
  unfold bracketed, shares_sign; simpl. unfold Rltb.
  destruct (Rlt_dec (lower_residual st) 0), (Rlt_dec (upper_residual st) 0);
    simpl; split; intros E; try discriminate E; try reflexivity; lra.
Qed.

(** C6.  Immediate-boundary case: when the range value at the minimum bound
    is within tolerance of the target, the solver returns the supplied
    triple unchanged and leaves the world of the callbacks as it found it:
    no callback is invoked. *)
Theorem immediate_return_at_minimum_bound
    {T : Type} {ops : Scalar T} {W St : Type}
    (pol : policy T) (cbs : callbacks W St T) (target tol : T)
    (minimum_domain_value maximum_domain_value : T)
    (range_at_minimum_domain_value range_at_maximum_domain_value : T)
    (initial : solution T) (w : W) :
  are_close range_at_minimum_domain_value target tol = true ->
  invert_differentiable_function pol cbs target tol
    minimum_domain_value maximum_domain_value
    range_at_minimum_domain_value range_at_maximum_domain_value
    initial w = (Returned initial, w).
Proof.
  intros E. unfold invert_differentiable_function. rewrite E. reflexivity.
Qed.

(** The maximum bound within tolerance is returned as readily, with the
    range value supplied for it. *)
Lemma immediate_return_at_maximum_bound
    {T : Type} {ops : Scalar T} {W St : Type}
    (pol : policy T) (cbs : callbacks W St T) (target tol : T)
    (minimum_domain_value maximum_domain_value : T)
    (range_at_minimum_domain_value range_at_maximum_domain_value : T)
    (initial : solution T) (w : W) :
  are_close range_at_minimum_domain_value target tol = false ->
  are_close range_at_maximum_domain_value target tol = true ->
  invert_differentiable_function pol cbs target tol
    minimum_domain_value maximum_domain_value
    range_at_minimum_domain_value range_at_maximum_domain_value
    initial w =
  (Returned {| domain_value := maximum_domain_value;
               range_value := range_at_maximum_domain_value;
               derivative_value := derivative_value initial |}, w).
Proof.
  intros E1 E2. unfold invert_differentiable_function.
  rewrite E1, E2. reflexivity.
Qed.

(** A target that the endpoint residuals do not bracket is refused before
    any callback is invoked. *)
Lemma invalid_bracket_refused
    {T : Type} {ops : Scalar T} {W St : Type}
    (pol : policy T) (cbs : callbacks W St T) (target tol : T)
    (minimum_domain_value maximum_domain_value : T)
    (range_at_minimum_domain_value range_at_maximum_domain_value : T)
    (initial : solution T) (w : W) :
  are_close range_at_minimum_domain_value target tol = false ->
  are_close range_at_maximum_domain_value target tol = false ->
  shares_sign (residual target range_at_minimum_domain_value)
              (residual target range_at_maximum_domain_value) = true ->
  invert_differentiable_function pol cbs target tol
    minimum_domain_value maximum_domain_value
    range_at_minimum_domain_value range_at_maximum_domain_value
    initial w = (Failed InvalidBracket, w).
Proof.
  intros E1 E2 E3. unfold invert_differentiable_function.
  rewrite E1, E2, E3. reflexivity.
Qed.

(** *** Containment in the domain bounds *)

Section Containment.
Context {T : Type} {ops : Scalar T} {ord : @ScalarOrder T ops} {W St : Type}.
Variable pol : policy T.
Variable cbs : callbacks W St T.
Variables target tol lo hi : T.
Local Open Scope scalar_scope.

Lemma inside_within_bounds (st : search_state T) (x : T) :
  bounds_invariant lo hi st -> strictly_inside st x = true ->
  within_bounds lo hi x = true.
Proof.
  intros (Hl & Hu & _) Hx. unfold strictly_inside in Hx.
  apply andb_true_iff in Hx as [H1 H2]. unfold within_bounds.
  apply andb_true_iff. split.
  - apply sleb_trans with (lower st); [exact Hl|apply sltb_sleb, H1].
  - apply sleb_trans with (upper st); [apply sltb_sleb, H2|exact Hu].
Qed.

Lemma update_bounds_invariant (st : search_state T) (p : solution T) :
  bounds_invariant lo hi st -> strictly_inside st (domain_value p) = true ->
  bounds_invariant lo hi (update target st p).
Proof.
  intros Hinv Hx. pose proof (inside_within_bounds _ _ Hinv Hx) as Hw.
  destruct Hinv as (Hl & Hu & _). unfold bounds_invariant, update.
  unfold within_bounds in Hw. apply andb_true_iff in Hw as [H1 H2].
  destruct (shares_sign _ _); simpl; repeat split; try assumption;
    unfold within_bounds; rewrite H1, H2; reflexivity.
Qed.

Lemma iterate_within_bounds (fuel : nat) :
  forall (st : search_state T) (w w' : W) (s : solution T),
    bounds_invariant lo hi st ->
    iterate pol cbs target tol fuel st w = (Returned s, w') ->
    within_bounds lo hi (domain_value s) = true.
Proof.
  induction fuel as [|fuel IH]; intros st w w' s Hinv; simpl.
  - discriminate.
  - unfold bind. destruct (step pol cbs target tol st w) as [[st'|o] w1] eqn:Es.
    + apply step_continue in Es as (x & p & Hc & _ & Hd & -> & _).
      apply IH. apply update_bounds_invariant; [exact Hinv|].
      rewrite Hd. apply (choose_candidate_inside pol target), Hc.
    + unfold ret. intros [= -> <-].
      apply step_stop in Es as [(_ & [= ->] & _)|(x & p & Hc & _ & Hd & [= ->] & _)].
      * apply Hinv.
      * apply inside_within_bounds with st; [exact Hinv|].
        rewrite Hd. apply (choose_candidate_inside pol target), Hc.
Qed.
End Containment.

(** C5.  Bracket containment: whenever the solver returns a point, its
    domain value lies in the closed interval of the domain bounds, the
    initial triple being the evaluation at the minimum bound.  This covers
    every input whose target lies between the endpoint range values. *)
Theorem returned_domain_value_within_bounds
    {T : Type} {ops : Scalar T} {ord : @ScalarOrder T ops} {W St : Type}
    (pol : policy T) (cbs : callbacks W St T) (target tol : T)
    (minimum_domain_value maximum_domain_value : T)
    (range_at_minimum_domain_value range_at_maximum_domain_value : T)
    (initial s : solution T) (w w' : W) :
  (minimum_domain_value <=? maximum_domain_value)%sc = true ->
  domain_value initial = minimum_domain_value ->
  invert_differentiable_function pol cbs target tol
    minimum_domain_value maximum_domain_value
    range_at_minimum_domain_value range_at_maximum_domain_value
    initial w = (Returned s, w') ->
  (minimum_domain_value <=? domain_value s)%sc = true /\
  (domain_value s <=? maximum_domain_value)%sc = true.
Proof.
  intros Hle Hi Hrun. apply andb_true_iff.
  change (within_bounds minimum_domain_value maximum_domain_value
            (domain_value s) = true).
  destruct (sleb_refl _ _ Hle) as [Hlo Hhi].
  unfold invert_differentiable_function in Hrun.
  destruct (are_close range_at_minimum_domain_value target tol).
  { injection Hrun as <- _. rewrite Hi. unfold within_bounds.
    rewrite Hlo, Hle. reflexivity. }
  destruct (are_close range_at_maximum_domain_value target tol).
  { injection Hrun as <- _. simpl. unfold within_bounds.
    rewrite Hle, Hhi. reflexivity. }
  destruct (shares_sign _ _); [discriminate Hrun|].
  apply (iterate_within_bounds pol cbs target tol
           minimum_domain_value maximum_domain_value) in Hrun;
    [exact Hrun|].
  unfold bounds_invariant, initial_state; simpl. rewrite Hi.
  unfold within_bounds. rewrite Hlo, Hhi, Hle. auto.
Qed.

(** *** The calls made to the callbacks *)

Section CallLog.
Context {T : Type} {ops : Scalar T} {ord : @ScalarOrder T ops} {St : Type}.
Variable f : T -> St.
Variables g h : St -> T.
Variable pol : policy T.
Variables target tol : T.
Local Open Scope scalar_scope.

Lemma evaluate_logged (x : T) (log : list (call St T)) :
  evaluate (logged f g h) x log =
  ({| domain_value := x; range_value := g (f x);
      derivative_value := h (f x) |}, log ++ calls_of f x).
Proof.
  unfold evaluate, bind, ret, logged, calls_of; simpl.
  rewrite <- !app_assoc. reflexivity.
Qed.

Lemma evaluated_points_calls (xs : list T) :
  evaluated_points (flat_map (calls_of f) xs) = xs.
Proof.
  induction xs as [|x xs IH]; simpl; [reflexivity|]. rewrite IH. reflexivity.
Qed.

(** The bracket of the next round is inside the bracket of this one. *)
Lemma update_nested (st : search_state T) (p : solution T) (y : T) :
  strictly_inside st (domain_value p) = true ->
  strictly_inside (update target st p) y = true ->
  strictly_inside st y = true.
Proof.
  unfold strictly_inside, update. intros Hp.
  apply andb_true_iff in Hp as [H1 H2].
  destruct (shares_sign _ _); simpl; intros Hy;
    apply andb_true_iff in Hy as [H3 H4]; apply andb_true_iff; split;
    try assumption.
  - apply sltb_trans with (domain_value p); assumption.
  - apply sltb_trans with (domain_value p); assumption.
Qed.

(** The point just evaluated is an endpoint of the next bracket. *)
Lemma update_endpoint (st : search_state T) (p : solution T) :
  strictly_inside (update target st p) (domain_value p) = false.
Proof.
  unfold strictly_inside, update.
  destruct (shares_sign _ _); simpl; rewrite sltb_irrefl;
    [reflexivity|apply andb_false_r].
Qed.

Lemma iterate_log (fuel : nat) :
  forall (st : search_state T) (log log' : list (call St T)) (o : outcome T),
    iterate pol (logged f g h) target tol fuel st log = (o, log') ->
    exists xs,
      log' = log ++ flat_map (calls_of f) xs /\
      length xs <= fuel /\
      Forall (fun x => strictly_inside st x = true) xs /\
      NoDup xs.
Proof.
  induction fuel as [|fuel IH]; intros st log log' o; simpl.
  - unfold ret. intros [= _ <-]. exists []. simpl.
    rewrite app_nil_r. repeat split; auto using NoDup_nil.
  - unfold bind.
    destruct (step pol (logged f g h) target tol st log) as [[st'|o'] w1] eqn:Es.
    + apply step_continue in Es as (x & p & Hc & He & Hd & -> & _).
      rewrite evaluate_logged in He. injection He as <- <-. simpl in Hd.
      pose proof (choose_candidate_inside pol target st x Hc) as Hx.
      intros Hrun. apply IH in Hrun as (xs & -> & Hlen & Hin & Hnd).
      set (p := {| domain_value := x; range_value := g (f x);
                   derivative_value := h (f x) |}) in *.
      exists (x :: xs). simpl flat_map. rewrite <- app_assoc.
      split; [reflexivity|]. split; [simpl; lia|]. split.
      * constructor; [exact Hx|].
        apply Forall_impl with (2 := Hin). intros y.
        apply (update_nested st p y). exact Hx.
      * constructor; [|exact Hnd]. intros Hmem.
        rewrite Forall_forall in Hin. apply Hin in Hmem.
        pose proof (update_endpoint st p) as He. simpl in He.
        congruence.
    + unfold ret. intros [= -> <-].
      apply step_stop in Es as [(_ & _ & ->)|(x & p & Hc & He & Hd & _ & _)].
      * exists []. simpl. rewrite app_nil_r.
        repeat split; auto using NoDup_nil with arith.
      * rewrite evaluate_logged in He. injection He as _ <-.
        exists [x]. simpl. rewrite ?app_nil_r.
        split; [reflexivity|]. split; [lia|]. split.
        -- constructor; [|constructor].
           apply (choose_candidate_inside pol target), Hc.
        -- constructor; [simpl; tauto|constructor].
Qed.
End CallLog.


(** *** Reaching the iteration cap *)

Section IterationCap.
Context {T : Type} {ops : Scalar T} {W St : Type}.
Variable pol : policy T.
Variable cbs : callbacks W St T.
Variables target tol : T.
Local Open Scope scalar_scope.

Lemma reaches_first (st0 st1 st : search_state T) (w0 w1 w : W) (n : nat) :
  step pol cbs target tol st0 w0 = (Continue st1, w1) ->
  reaches pol cbs target tol st1 w1 n st w ->
  reaches pol cbs target tol st0 w0 (S n) st w.
Proof.
  intros Hs Hr. induction Hr as [|n st w st' w' Hr IH Hs'].
  - apply reaches_round with st0 w0; [apply reaches_start|exact Hs].
  - apply reaches_round with st w; [exact IH|exact Hs'].
Qed.

(** Rounds that all continue use up the fuel one by one. *)
Lemma iterate_reaches (n : nat) :
  forall (k : nat) (st0 st : search_state T) (w0 w : W),
    reaches pol cbs target tol st0 w0 n st w ->
    iterate pol cbs target tol (n + k) st0 w0 =
    iterate pol cbs target tol k st w.
Proof.
  intros k st0 st w0 w Hr. revert k.
  induction Hr as [|n st w st' w' Hr IH Hs]; intros k; [reflexivity|].
  replace (S n + k)%nat with (n + S k)%nat by lia. rewrite IH.
  simpl. unfold bind. rewrite Hs. reflexivity.
Qed.

Lemma evaluate_range (x : T) (w : W) :
  exists s w1,
    range_value (fst (evaluate cbs x w)) =
    fst (range_value_from_state cbs s w1).
Proof.
  unfold evaluate, bind, ret.
  destruct (state_from_domain_value cbs x w) as [s w1]. exists s, w1.
  destruct (range_value_from_state cbs s w1) as [r w2].
  destruct (derivative_value_from_state cbs s w2) as [d w3].
  reflexivity.
Qed.

Lemma update_nonempty (st : search_state T) (p : solution T) :
  strictly_inside st (domain_value p) = true ->
  nonempty (update target st p).
Proof.
  unfold nonempty, strictly_inside, update. intros Hp.
  apply andb_true_iff in Hp as [H1 H2].
  destruct (shares_sign _ _); simpl; assumption.
Qed.

Hypothesis never_close :
  forall s w, are_close (fst (range_value_from_state cbs s w)) target tol = false.

(** With callbacks that are never within tolerance the loop goes on until
    the fuel is used up, unless a round finds the bracket collapsed: no
    candidate is strictly inside it, or the policy says so after the
    update. *)
Lemma iterate_never_close (k : nat) :
  forall (st0 : search_state T) (w0 : W),
    exists n st w,
      reaches pol cbs target tol st0 w0 n st w /\
      ((n = k /\
        iterate pol cbs target tol k st0 w0 = (Failed NonConvergence, w)) \/
       (n < k /\
        ((choose_candidate pol target st = None /\
          iterate pol cbs target tol k st0 w0 = (Returned (best st), w)) \/
         (exists x p w',
            choose_candidate pol target st = Some x /\
            evaluate cbs x w = (p, w') /\
            width_collapsed pol (update target st p) = true /\
            iterate pol cbs target tol k st0 w0 = (Returned p, w')))))%nat.
Proof.
  induction k as [|k IH]; intros st0 w0.
  - exists 0%nat, st0, w0. split; [apply reaches_start|].
    left. split; reflexivity.
  - assert (Hit : iterate pol cbs target tol (S k) st0 w0 =
                  match step pol cbs target tol st0 w0 with
                  | (Stop o, w') => (o, w')
                  | (Continue st', w') => iterate pol cbs target tol k st' w'
                  end).
    { cbn [iterate]. unfold bind.
      destruct (step pol cbs target tol st0 w0) as [[st'|o] w'];
        reflexivity. }
    rewrite Hit. clear Hit.
    destruct (choose_candidate pol target st0) as [x|] eqn:Hc.
    + destruct (evaluate cbs x w0) as [p w1] eqn:He.
      assert (Hs : step pol cbs target tol st0 w0 =
                   (if width_collapsed pol (update target st0 p)
                    then Stop (Returned p)
                    else Continue (update target st0 p), w1)).
      { unfold step. rewrite Hc. unfold bind. rewrite He.
        destruct (evaluate_range x w0) as (s & w2 & Hr).
        rewrite He in Hr. simpl in Hr. rewrite Hr, never_close.
        destruct (width_collapsed pol _); reflexivity. }
      rewrite Hs.
      destruct (width_collapsed pol (update target st0 p)) eqn:Hw.
      * exists 0%nat, st0, w0. split; [apply reaches_start|]. right.
        split; [lia|]. right. exists x, p, w1.
        repeat split; try assumption; reflexivity.
      * destruct (IH (update target st0 p) w1) as (n & st & w & Hr & Hcase).
        exists (S n), st, w. split.
        { apply reaches_first with (update target st0 p) w1; assumption. }
        destruct Hcase as [[-> Hi]|[Hn Hi]].
        { left. split; [reflexivity|exact Hi]. }
        { right. split; [lia|exact Hi]. }
    + assert (Hs : step pol cbs target tol st0 w0 =
                   (Stop (Returned (best st0)), w0)).
      { unfold step. rewrite Hc. reflexivity. }
      rewrite Hs. exists 0%nat, st0, w0. split; [apply reaches_start|]. right.
      split; [lia|]. left. split; [exact Hc|reflexivity].
Qed.

(** Under the law of the exact midpoint, and with a policy that never
    declares the bracket collapsed, no round finds it collapsed. *)
Context {mid : @ExactMidpoint T ops}.
Hypothesis never_collapsed : forall st, width_collapsed pol st = false.

Lemma choose_candidate_some (st : search_state T) :
  nonempty st -> exists x, choose_candidate pol target st = Some x.
Proof.
  intros Hne. unfold choose_candidate.
  destruct (negb _ && _ && _); [eauto|].
  destruct (average_inside _ _ Hne) as [H1 H2].
  unfold strictly_inside. rewrite H1, H2. simpl. eauto.
Qed.

Lemma step_continues (st : search_state T) (w : W) :
  nonempty st ->
  exists st' w',
    step pol cbs target tol st w = (Continue st', w') /\ nonempty st'.
Proof.
  intros Hne. destruct (choose_candidate_some st Hne) as [x Hc].
  unfold step. rewrite Hc. unfold bind.
  pose proof (evaluate_domain cbs x w) as Hd.
  destruct (evaluate_range x w) as (s & w1 & Hr).
  destruct (evaluate cbs x w) as [p w']; simpl in Hd, Hr.
  rewrite Hr, never_close, never_collapsed.
  exists (update target st p), w'. split; [reflexivity|].
  apply update_nonempty. rewrite Hd.
  apply (choose_candidate_inside pol target), Hc.
Qed.

Lemma reaches_any (n : nat) :
  forall (st0 : search_state T) (w0 : W),
    nonempty st0 ->
    exists st w, reaches pol cbs target tol st0 w0 n st w.
Proof.
  induction n as [|n IH]; intros st0 w0 Hne.
  - exists st0, w0. apply reaches_start.
  - destruct (step_continues st0 w0 Hne) as (st1 & w1 & Hs & Hne1).
    destruct (IH st1 w1 Hne1) as (st & w & Hr).
    exists st, w. apply reaches_first with st1 w1; assumption.
Qed.
End IterationCap.

(** A run past the entry checks is the loop from the initial state. *)
Lemma invert_differentiable_function_loop
    {T : Type} {ops : Scalar T} {W St : Type}
    (pol : policy T) (cbs : callbacks W St T) (target tol : T)
    (minimum_domain_value maximum_domain_value : T)
    (range_at_minimum_domain_value range_at_maximum_domain_value : T)
    (initial : solution T) (w : W) :
  are_close range_at_minimum_domain_value target tol = false ->
  are_close range_at_maximum_domain_value target tol = false ->
  shares_sign (residual target range_at_minimum_domain_value)
              (residual target range_at_maximum_domain_value) = false ->
  invert_differentiable_function pol cbs target tol
    minimum_domain_value maximum_domain_value
    range_at_minimum_domain_value range_at_maximum_domain_value initial w =
  iterate pol cbs target tol (maximum_iterations pol)
    (initial_state target minimum_domain_value maximum_domain_value
       range_at_minimum_domain_value range_at_maximum_domain_value initial)
    w.
Proof.
  intros E1 E2 E3. unfold invert_differentiable_function.
  rewrite E1, E2, E3. reflexivity.
Qed.


(** In exact arithmetic the bracket of such a run never collapses of
    itself: with a policy that does not declare it collapsed, callbacks
    that are never within tolerance give [NonConvergence] after exactly as
    many rounds as the cap. *)
Lemma non_convergence_without_collapse
    {T : Type} {ops : Scalar T} {mid : @ExactMidpoint T ops} {W St : Type}
    (pol : policy T) (cbs : callbacks W St T) (target tol : T)
    (minimum_domain_value maximum_domain_value : T)
    (range_at_minimum_domain_value range_at_maximum_domain_value : T)
    (initial : solution T) (w : W) :
  are_close range_at_minimum_domain_value target tol = false ->
  are_close range_at_maximum_domain_value target tol = false ->
  shares_sign (residual target range_at_minimum_domain_value)
              (residual target range_at_maximum_domain_value) = false ->
  (forall s w1,
     are_close (fst (range_value_from_state cbs s w1)) target tol = false) ->
  (forall st, width_collapsed pol st = false) ->
  (minimum_domain_value <? maximum_domain_value)%sc = true ->
  exists st w',
    reaches pol cbs target tol
      (initial_state target minimum_domain_value maximum_domain_value
         range_at_minimum_domain_value range_at_maximum_domain_value initial)
      w (maximum_iterations pol) st w' /\
    invert_differentiable_function pol cbs target tol
      minimum_domain_value maximum_domain_value
      range_at_minimum_domain_value range_at_maximum_domain_value
      initial w = (Failed NonConvergence, w').
Proof.
  intros E1 E2 E3 Hclose Hwidth Hlt.
  rewrite invert_differentiable_function_loop by assumption.
  set (st0 := initial_state target minimum_domain_value maximum_domain_value
                range_at_minimum_domain_value range_at_maximum_domain_value
                initial).
  destruct (reaches_any pol cbs target tol Hclose Hwidth
              (maximum_iterations pol) st0 w Hlt) as (st & w' & Hr).
  exists st, w'. split; [exact Hr|].
  pose proof (iterate_reaches pol cbs target tol _ 0 _ _ _ _ Hr) as Hi.
  rewrite Nat.add_0_r in Hi. rewrite Hi. reflexivity.
Qed.

(** *** The linear test *)

(** C2.  The linear test: range function [f(x) = x] on [[0, 1]], target
    [0.3], tolerance [1e-6], on [double].  Whenever the policy allows one
    round and accepts the Newton step from the minimum bound, the solver
    returns the domain value and the range value [0.3] exactly, and
    [evaluation_counter] ends at 3: two evaluations by the test for the
    endpoints, and one by the solver, which starts at 2 and ends at 3. *)
Theorem invert_linear_result (pol : policy float) :
  1 <= maximum_iterations pol ->
  adequate_progress pol
    (initial_state 0.3%float 0%float 1%float 0%float 1%float
       {| domain_value := 0%float; range_value := 0%float;
          derivative_value := 1%float |}) 0.3%float = true ->
  invert_linear pol 0 =
    (Returned {| domain_value := 0.3%float; range_value := 0.3%float;
                 derivative_value := 1%float |}, 3) /\
  invert_differentiable_function pol linear_callbacks 0.3%float 1.0e-6%float
    0%float 1%float 0%float 1%float
    {| domain_value := 0%float; range_value := 0%float;
       derivative_value := 1%float |} 2 =
    (Returned {| domain_value := 0.3%float; range_value := 0.3%float;
                 derivative_value := 1%float |}, 3).
Proof.
  intros Hcap Hprog.
  assert (Hrun : forall c,
    invert_differentiable_function pol linear_callbacks 0.3%float
      1.0e-6%float 0%float 1%float 0%float 1%float
      {| domain_value := 0%float; range_value := 0%float;
         derivative_value := 1%float |} c =
    (Returned {| domain_value := 0.3%float; range_value := 0.3%float;
                 derivative_value := 1%float |}, S c)).
  { intros c. unfold invert_differentiable_function.
    destruct (maximum_iterations pol) as [|k]; [lia|].
    change (are_close 0%float 0.3%float 1.0e-6%float) with false.
    change (are_close 1%float 0.3%float 1.0e-6%float) with false.
    change (shares_sign (residual 0.3%float 0%float)
              (residual 0.3%float 1%float)) with false.
    cbv iota. cbn [iterate]. unfold bind at 1. unfold step.
    unfold choose_candidate.
    change (newton_candidate 0.3%float (best _)) with 0.3%float.
    rewrite Hprog. reflexivity. }
  split; [|apply (Hrun 2)].
  exact (Hrun 2).
Qed.

(** The policy [unrestricted] with any positive cap meets the conditions. *)
Lemma invert_linear_result_witness :
  invert_linear (unrestricted 100) 0 =
    (Returned {| domain_value := 0.3%float; range_value := 0.3%float;
                 derivative_value := 1%float |}, 3).
Proof.
  apply (invert_linear_result (unrestricted 100)).
  - simpl. lia.
  - reflexivity.
Defined.


(** *** Concrete runs on [double] *)

(** The linear test started at a minimum bound that is within tolerance. *)
Lemma immediate_return_at_minimum_bound_witness :
  invert_differentiable_function (unrestricted 100) linear_callbacks
    0.3%float 1.0e-6%float 0.3%float 1%float 0.3%float 1%float
    {| domain_value := 0.3%float; range_value := 0.3%float;
       derivative_value := 1%float |} 2 =
  (Returned {| domain_value := 0.3%float; range_value := 0.3%float;
               derivative_value := 1%float |}, 2).
Proof.
  apply immediate_return_at_minimum_bound. reflexivity.
Defined.


(** The linear test returns [0.3], inside [[0, 1]]. *)
Lemma returned_domain_value_within_bounds_witness :
  (0 <=? 0.3)%float = true /\ (0.3 <=? 1)%float = true.
Proof.
  refine (returned_domain_value_within_bounds (unrestricted 100)
            linear_callbacks 0.3%float 1.0e-6%float 0%float 1%float
            0%float 1%float
            {| domain_value := 0%float; range_value := 0%float;
               derivative_value := 1%float |}
            {| domain_value := 0.3%float; range_value := 0.3%float;
               derivative_value := 1%float |} 2 3 _ _ _); reflexivity.
Defined.


(** Adversarial callbacks on [double], cap 100: a hundred bisections of
    [[0, 1]], then [NonConvergence]. *)
Example non_convergence_double :
  invert_differentiable_function (unrestricted 100)
    (adversarial_callbacks 5%float) 0.3%float 1.0e-6%float
    0%float 1%float 0%float 1%float
    {| domain_value := 0%float; range_value := 0%float;
       derivative_value := 0%float |} 2 =
  (Failed NonConvergence, 102).
Proof. vm_compute. reflexivity. Qed.



(** *** The cosine test *)

Section CosineRun.
Variables std_cos std_sin : float -> float.
Variable pol : policy float.
Variables target tol : float.

Lemma cosine_evaluate_counter (x : float) (w : test_world) :
  evaluation_counter
    (snd (evaluate (cosine_callbacks std_cos std_sin) x w)) =
  S (evaluation_counter w).
Proof. reflexivity. Qed.

Lemma cosine_step_counter (st : search_state float) (w : test_world) :
  (evaluation_counter w <=
   evaluation_counter
     (snd (step pol (cosine_callbacks std_cos std_sin) target tol st w)) <=
   S (evaluation_counter w))%nat.
Proof.
  unfold step. destruct (choose_candidate pol target st) as [x|].
  - unfold bind.
    pose proof (cosine_evaluate_counter x w) as He.
    destruct (evaluate (cosine_callbacks std_cos std_sin) x w) as [p w'].
    simpl in He.
    destruct (are_close _ _ _); [simpl; lia|].
    destruct (width_collapsed pol _); simpl; lia.
  - simpl. lia.
Qed.

Lemma cosine_iterate_counter (fuel : nat) :
  forall (st : search_state float) (w : test_world),
    (evaluation_counter w <=
     evaluation_counter
       (snd (iterate pol (cosine_callbacks std_cos std_sin) target tol
               fuel st w)) <=
     evaluation_counter w + fuel)%nat.
Proof.
  induction fuel as [|fuel IH]; intros st w.
  - simpl. lia.
  - cbn [iterate]. unfold bind.
    pose proof (cosine_step_counter st w) as Hs.
    destruct (step pol (cosine_callbacks std_cos std_sin) target tol st w)
      as [[st'|o] w'].
    + simpl in Hs. specialize (IH st' w'). lia.
    + simpl in Hs. simpl. lia.
Qed.
End CosineRun.

(** The test evaluates the two bounds and calls the solver. *)
Lemma invert_cosine_call (std_cos std_sin : float -> float)
    (pi_value : float) (pol : policy float) (w : test_world) :
  exists w2 : test_world,
    evaluation_counter w2 = S (S (evaluation_counter w)) /\
    invert_cosine std_cos std_sin pi_value pol w =
    invert_differentiable_function pol (cosine_callbacks std_cos std_sin)
      0.3%float 1.0e-6%float 0%float pi_value
      (std_cos 0%float) (std_cos pi_value)
      {| domain_value := 0%float; range_value := std_cos 0%float;
         derivative_value := (- std_sin 0%float)%float |} w2.
Proof. eexists. split; [|reflexivity]. reflexivity. Qed.

(** Whatever [std::cos], [std::sin] and [pi_value] are, the cosine test
    comes to an end having made two evaluations, those of the two bounds,
    and at most as many more as the iteration cap.  What it ends with
    depends on the values of the library functions. *)
Lemma invert_cosine_evaluations (std_cos std_sin : float -> float)
    (pi_value : float) (pol : policy float) (w : test_world) :
  let w' := snd (invert_cosine std_cos std_sin pi_value pol w) in
  (evaluation_counter w + 2 <= evaluation_counter w' <=
   evaluation_counter w + 2 + maximum_iterations pol)%nat.
Proof.
  destruct (invert_cosine_call std_cos std_sin pi_value pol w)
    as (w2 & E2 & ->).
  unfold invert_differentiable_function.
  destruct (are_close _ _ _); [simpl; lia|].
  destruct (are_close _ _ _); [simpl; lia|].
  destruct (shares_sign _ _); [simpl; lia|].
  pose proof (cosine_iterate_counter std_cos std_sin pol 0.3%float
                1.0e-6%float (maximum_iterations pol)
                (initial_state 0.3%float 0%float pi_value (std_cos 0%float)
                   (std_cos pi_value)
                   {| domain_value := 0%float;
                      range_value := std_cos 0%float;
                      derivative_value := (- std_sin 0%float)%float |})
                w2) as Hi.
  cbv zeta. lia.
Qed.

(** * More of the numeric header *)

(** ** Further facts about the binary64 specification *)

Section SpecFloatSigns.
Variables prec emax : Z.

(** A rounded value carries the sign it was given, or is NaN. *)
Lemma binary_round_aux_cases (s : bool) (m e : Z) (l : location) :
  binary_round_aux prec emax s m e l = S754_zero s \/
  binary_round_aux prec emax s m e l = S754_infinity s \/
  binary_round_aux prec emax s m e l = S754_nan \/
  exists m' e', binary_round_aux prec emax s m e l = S754_finite s m' e'.
Proof.
  unfold binary_round_aux.
  destruct (shr_fexp prec emax m e l) as [mrs e1].
  destruct (shr_fexp prec emax _ e1 loc_Exact) as [mrs' e2].
  destruct (shr_m mrs'); auto.
  destruct (Z.leb e2 (Z.sub emax prec)); eauto 6.
Qed.

Lemma SFopp_binary_round_aux (s : bool) (m e : Z) (l : location) :
  SFopp (binary_round_aux prec emax s m e l) =
  binary_round_aux prec emax (negb s) m e l.
Proof.
  unfold binary_round_aux.
  destruct (shr_fexp prec emax m e l) as [mrs e1].
  destruct (shr_fexp prec emax _ e1 loc_Exact) as [mrs' e2].
  destruct (shr_m mrs'); try reflexivity.
  destruct (Z.leb e2 (Z.sub emax prec)); reflexivity.
Qed.

Lemma SFmul_comm (x y : spec_float) :
  SFmul prec emax x y = SFmul prec emax y x.
Proof.
  destruct x as [sx|sx| |sx mx ex], y as [sy|sy| |sy my ey]; simpl;
    rewrite ?(xorb_comm sy sx); try reflexivity.
  rewrite (Pos.mul_comm my mx), (Z.add_comm ey ex). reflexivity.
Qed.

Lemma SFmul_opp_l (x y : spec_float) :
  SFmul prec emax (SFopp x) y = SFopp (SFmul prec emax x y).
Proof.
  destruct x as [sx|sx| |sx mx ex], y as [sy|sy| |sy my ey]; simpl;
    rewrite ?SFopp_binary_round_aux; try reflexivity;
    try (destruct sx, sy; reflexivity); try (destruct sx; reflexivity).
Qed.

Lemma SFopp_involutive (x : spec_float) : SFopp (SFopp x) = x.
Proof. destruct x as [s|s| |s m e]; simpl; rewrite ?negb_involutive; reflexivity. Qed.

Lemma SFabs_SFopp (x : spec_float) : SFabs (SFopp x) = SFabs x.
Proof. destruct x; reflexivity. Qed.

(** A value with the sign [false] is not below zero. *)
Lemma SFltb_zero_positive_label (r : spec_float) (z : bool) :
  (r = S754_zero false \/ r = S754_infinity false \/ r = S754_nan \/
   exists m e, r = S754_finite false m e) ->
  SFltb r (S754_zero z) = false.
Proof.
  intros [-> | [-> | [-> | (m & e & ->)]]]; reflexivity.
Qed.

Lemma SFcompare_antisym (x y : spec_float) :
  SFcompare y x = option_map CompOpp (SFcompare x y).
Proof.
  destruct x as [sx|sx| |sx mx ex], y as [sy|sy| |sy my ey];
    try destruct sx; try destruct sy; simpl; try reflexivity.
  all: rewrite (Z.compare_antisym ex ey);
    destruct (Z.compare ex ey); simpl; try reflexivity;
    change (PosDef.Pos.compare_cont Eq ?a ?b) with (Pos.compare a b);
    rewrite (Pos.compare_antisym mx my);
    destruct (Pos.compare mx my); reflexivity.
Qed.

(** On values that are not NaN the comparisons are total. *)
Lemma SFltb_false_SFleb (x y : spec_float) :
  x <> S754_nan -> y <> S754_nan ->
  SFltb x y = false -> SFleb y x = true.
Proof.
  intros Hx Hy. unfold SFltb, SFleb. rewrite (SFcompare_antisym x y).
  destruct (SFcompare x y) as [[]|] eqn:E; simpl; try congruence.
  intros _. destruct x, y; simpl in E; congruence.
Qed.
End SpecFloatSigns.

Section SpecFloatOrder.
Variables prec emax : Z.

Ltac order_cases :=
  repeat match goal with
  | |- context [Z.compare ?a ?b] => destruct (Z.compare_spec a b)
  | |- context [PosDef.Pos.compare_cont Eq ?a ?b] =>
      change (PosDef.Pos.compare_cont Eq a b) with (Pos.compare a b);
      destruct (Pos.compare_spec a b)
  | H : context [Z.compare ?a ?b] |- _ => destruct (Z.compare_spec a b)
  | H : context [PosDef.Pos.compare_cont Eq ?a ?b] |- _ =>
      change (PosDef.Pos.compare_cont Eq a b) with (Pos.compare a b) in H;
      destruct (Pos.compare_spec a b)
  end; simpl in *; try reflexivity; try discriminate; try lia.

Lemma SFltb_SFleb_trans (x y z : spec_float) :
  SFltb x y = true -> SFleb y z = true -> SFltb x z = true.
Proof.
  unfold SFltb, SFleb.
  destruct x as [sx|sx| |sx mx ex], y as [sy|sy| |sy my ey],
    z as [sz|sz| |sz mz ez];
    try destruct sx; try destruct sy; try destruct sz; simpl;
    try reflexivity; try discriminate.
  all: intros H1 H2; order_cases.
Qed.

Lemma binary_round_cases (s : bool) (m : positive) (e : Z) :
  binary_round prec emax s m e = S754_zero s \/
  binary_round prec emax s m e = S754_infinity s \/
  exists m' e', binary_round prec emax s m e = S754_finite s m' e'.
Proof.
  pose proof (binary_round_not_nan prec emax s m e) as Hn.
  unfold binary_round in *. destruct (shl_align m e _) as [mz ez].
  destruct (binary_round_aux_cases prec emax s (Zpos mz) ez loc_Exact)
    as [E|[E|[E|E]]]; auto. contradiction.
Qed.

(** The sum of two absolute values is not negative, unless it is NaN. *)
Lemma SFadd_abs_nonneg (x y : spec_float) :
  x <> S754_nan -> y <> S754_nan ->
  SFleb (S754_zero false) (SFadd prec emax (SFabs x) (SFabs y)) = true.
Proof.
  intros Hx Hy.
  destruct x as [sx|sx| |sx mx ex], y as [sy|sy| |sy my ey];
    try contradiction; try reflexivity.
  unfold SFabs, SFadd, cond_Zopp.
  rewrite <- Pos2Z.inj_add. unfold binary_normalize.
  destruct (binary_round_cases false
              (fst (shl_align mx ex (Z.min ex ey)) +
               fst (shl_align my ey (Z.min ex ey))) (Z.min ex ey))
    as [-> | [-> | (m' & e' & ->)]]; reflexivity.
Qed.

(** The product of two positive values is not negative, and not NaN. *)
Lemma SFmul_positive (x y : spec_float) :
  SFltb (S754_zero false) x = true -> SFltb (S754_zero false) y = true ->
  SFleb (S754_zero false) (SFmul prec emax x y) = true.
Proof.
  destruct x as [sx|sx| |sx mx ex], y as [sy|sy| |sy my ey];
    try destruct sx; try destruct sy; try discriminate; try reflexivity.
  intros _ _. unfold SFmul. simpl xorb.
  pose proof (binary_round_aux_not_nan prec emax false
                (Zpos (mx * my)) (ex + ey) loc_Exact ltac:(lia)) as Hn.
  destruct (binary_round_aux_cases prec emax false (Zpos (mx * my))
              (ex + ey) loc_Exact) as [E|[E|[E|(m' & e' & E)]]];
    rewrite E in *; try reflexivity. contradiction.
Qed.

(** The difference of a finite value with itself is [+0]. *)
Lemma SFsub_diag (x : spec_float) :
  SFltb (SFabs x) (S754_infinity false) = true ->
  SFsub prec emax x x = S754_zero false.
Proof.
  destruct x as [sx|sx| |sx mx ex]; try discriminate; intros _.
  - destruct sx; reflexivity.
  - unfold SFsub. rewrite Z.sub_diag. reflexivity.
Qed.
End SpecFloatOrder.

Section SpecFloatZero.
Variables prec emax : Z.

(** Adding a zero changes no number, up to the sign of a zero. *)
Lemma SFadd_zero_r (x : spec_float) (s : bool) :
  x <> S754_nan -> SFeqb (SFadd prec emax x (S754_zero s)) x = true.
Proof.
  intros Hn. unfold SFeqb.
  destruct x as [sx|sx| |sx m e]; cbn [SFadd].
  - destruct sx, s; reflexivity.
  - rewrite SFcompare_refl by discriminate. reflexivity.
  - contradiction.
  - rewrite SFcompare_refl by discriminate. reflexivity.
Qed.

(** Zero times a zero or a finite number is a zero. *)
Lemma SFmul_zero_l (z : bool) (d : spec_float) :
  SFltb (SFabs d) (S754_infinity false) = true ->
  exists s, SFmul prec emax (S754_zero z) d = S754_zero s.
Proof.
  destruct d as [sd|sd| |sd m e]; cbn; try discriminate; eauto.
Qed.
End SpecFloatZero.

Section SpecFloatSqrt.
Variables prec emax : Z.

(** A square root is never below zero. *)
Lemma SFsqrt_not_negative (x y : spec_float) :
  SFltb (SFsqrt prec emax x) (SFabs y) = false \/
  SFltb (S754_zero false) (SFabs y) = true.
Proof.
  assert (Hc : SFsqrt prec emax x = S754_nan \/
               (exists s, SFsqrt prec emax x = S754_zero s) \/
               SFsqrt prec emax x = S754_infinity false \/
               exists m e, SFsqrt prec emax x = S754_finite false m e).
  { destruct x as [s|[|]| |[|] m e]; cbn [SFsqrt]; eauto.
    destruct (SFsqrt_core_binary prec emax (Zpos m) e) as [[m' e'] l].
    destruct (binary_round_aux_cases prec emax false m' e' l)
      as [E|[E|[E|[m2 [e2 E]]]]]; rewrite E; eauto 6. }
  destruct y as [sy|sy| |sy my ey]; cbn [SFabs];
    destruct Hc as [E|[[s E]|[E|[m [e E]]]]]; rewrite E; auto.
Qed.
End SpecFloatSqrt.

(** ** Further facts about [double] *)

(** [x == x] fails for NaN only. *)
Lemma double_self_equal (x : float) :
  (x =? x)%float = true <-> Prim2SF x <> S754_nan.
Proof.
  rewrite eqb_spec. unfold SFeqb. split.
  - intros E Hn. rewrite Hn in E. discriminate E.
  - intros Hn. rewrite SFcompare_refl by exact Hn. reflexivity.
Qed.

Lemma double_self_unequal (x : float) :
  (x =? x)%float = false <-> Prim2SF x = S754_nan.
Proof.
  split.
  - intros E. destruct (Prim2SF x) eqn:Ex; try reflexivity;
      assert (Hn : Prim2SF x <> S754_nan) by (rewrite Ex; discriminate);
      apply double_self_equal in Hn; congruence.
  - intros E. rewrite eqb_spec, E. reflexivity.
Qed.

(** [|x| < infinity]: [x] is a zero or a finite number. *)
Lemma double_finite (x : float) :
  (PrimFloat.abs x <? infinity)%float = true ->
  SFltb (SFabs (Prim2SF x)) (S754_infinity false) = true.
Proof.
  rewrite ltb_spec, abs_spec.
  change (Prim2SF infinity) with (S754_infinity false). tauto.
Qed.

Lemma double_total (a b : float) :
  (a =? a)%float = true -> (b =? b)%float = true ->
  (a <? b)%float = false -> (b <=? a)%float = true.
Proof.
  rewrite !double_self_equal, ltb_spec, leb_spec. apply SFltb_false_SFleb.
Qed.

Lemma double_leb_refl (a : float) :
  (a =? a)%float = true -> (a <=? a)%float = true.
Proof.
  rewrite double_self_equal, leb_spec. intros Hn. unfold SFleb.
  rewrite SFcompare_refl by exact Hn. reflexivity.
Qed.

Lemma double_mul_comm (a b : float) : (a * b = b * a)%float.
Proof. apply Prim2SF_inj. rewrite !mul_spec. apply SFmul_comm. Qed.

Lemma double_mul_opp_l (a b : float) : (- a * b = - (a * b))%float.
Proof.
  apply Prim2SF_inj. rewrite opp_spec, !mul_spec, opp_spec.
  apply SFmul_opp_l.
Qed.

Lemma double_mul_opp_r (a b : float) : (a * - b = - (a * b))%float.
Proof.
  rewrite (double_mul_comm a (- b)), double_mul_opp_l.
  rewrite (double_mul_comm b a). reflexivity.
Qed.

Lemma double_opp_involutive (a : float) : (- - a = a)%float.
Proof. apply Prim2SF_inj. rewrite !opp_spec. apply SFopp_involutive. Qed.

Lemma double_abs_opp (a : float) : PrimFloat.abs (- a) = PrimFloat.abs a.
Proof. apply Prim2SF_inj. rewrite !abs_spec, opp_spec. apply SFabs_SFopp. Qed.

(** *** [are_close] *)

(** X1.  A NaN is within tolerance of nothing, and a NaN tolerance accepts
    nothing. *)
Theorem are_close_excludes_nan (a b tolerance : float) :
  are_close a b tolerance = true ->
  (a =? a)%float = true /\ (b =? b)%float = true /\
  (tolerance =? tolerance)%float = true.
Proof.
  unfold are_close; simpl. intros E.
  assert (Hd : Prim2SF (PrimFloat.abs (b - a)) <> S754_nan).
  { intros Hn. rewrite (double_leb_nan_l _ _ Hn) in E. discriminate E. }
  assert (Ht : Prim2SF (tolerance *
                 max (PrimFloat.abs a + PrimFloat.abs b) 1)%float
               <> S754_nan).
  { intros Hn. rewrite (double_leb_nan_r _ _ Hn) in E. discriminate E. }
  rewrite abs_spec, sub_spec in Hd. rewrite mul_spec in Ht.
  rewrite !double_self_equal. repeat split; intros Hn.
  - apply Hd. rewrite Hn. unfold SF64sub. rewrite SFsub_nan_r. reflexivity.
  - apply Hd. rewrite Hn. reflexivity.
  - apply Ht. rewrite Hn. reflexivity.
Qed.

Lemma are_close_excludes_nan_witness :
  (0.3 =? 0.3)%float = true /\ (0.3 =? 0.3)%float = true /\
  (1.0e-6 =? 1.0e-6)%float = true.
Proof.
  refine (are_close_excludes_nan 0.3%float 0.3%float 1.0e-6%float _).
  reflexivity.
Defined.

(** X2.  A finite value is within any positive tolerance of itself. *)
Theorem are_close_reflexive (a tolerance : float) :
  (PrimFloat.abs a <? infinity)%float = true ->
  (0 <? tolerance)%float = true ->
  are_close a a tolerance = true.
Proof.
  intros Ha Ht. apply double_finite in Ha.
  unfold are_close, max; simpl.
  set (s := (PrimFloat.abs a + PrimFloat.abs a)%float).
  assert (Hna : Prim2SF a <> S754_nan).
  { intros Hn. rewrite Hn in Ha. discriminate Ha. }
  assert (Hs : SFleb (S754_zero false) (Prim2SF s) = true).
  { unfold s. rewrite add_spec, !abs_spec.
    apply SFadd_abs_nonneg; assumption. }
  assert (H1 : SFltb (S754_zero false) (Prim2SF 1%float) = true)
    by reflexivity.
  assert (Hv : SFltb (S754_zero false)
                 (Prim2SF (if (s <? 1)%float then 1%float else s)) = true).
  { destruct (s <? 1)%float eqn:E; [exact H1|].
    apply SFltb_SFleb_trans with (Prim2SF 1%float); [exact H1|].
    rewrite ltb_spec in E. apply SFltb_false_SFleb; try exact E.
    - intros Hn. rewrite Hn in Hs. destruct (Prim2SF 1%float); discriminate.
    - discriminate. }
  rewrite ltb_spec in Ht. change (Prim2SF 0) with (S754_zero false) in Ht.
  rewrite leb_spec, abs_spec, sub_spec, mul_spec. unfold SF64sub.
  rewrite (SFsub_diag _ _ _ Ha). simpl SFabs.
  apply SFmul_positive; assumption.
Qed.

Lemma are_close_reflexive_witness :
  are_close 1e308%float 1e308%float 1.0e-6%float = true.
Proof.
  apply are_close_reflexive; reflexivity.
Defined.

(** With a zero tolerance a large finite value is not within tolerance of
    itself: the scale overflows and [0 * infinity] is NaN. *)
Example are_close_zero_tolerance :
  are_close 1e308%float 1e308%float 0%float = false /\
  are_close 1%float 1%float 0%float = true.
Proof. split; reflexivity. Qed.

(** *** [square] and [cube] *)

(** X3.  A square is never negative, and [square] is even. *)
Theorem square_not_negative_and_even (x : float) :
  (square x <? 0)%float = false /\ square (- x)%float = square x.
Proof.
  unfold square; simpl. split.
  - rewrite ltb_spec, mul_spec.
    change (Prim2SF 0) with (S754_zero false).
    apply SFltb_zero_positive_label. unfold SF64mul.
    destruct (Prim2SF x) as [s|s| |s m e]; simpl;
      rewrite ?xorb_nilpotent; auto.
    destruct (binary_round_aux_cases prec emax false (Zpos (m * m)) (e + e)
                loc_Exact) as [E|[E|[E|E]]]; auto.
  - rewrite double_mul_opp_l, double_mul_opp_r, double_opp_involutive.
    reflexivity.
Qed.

(** X4.  [cube] is odd. *)
Theorem cube_odd (x : float) : cube (- x)%float = (- cube x)%float.
Proof.
  unfold cube; simpl.
  rewrite (double_mul_opp_l x (- x)), (double_mul_opp_r x x).
  rewrite double_opp_involutive, double_mul_opp_r. reflexivity.
Qed.

(** *** [maximum] and [minimum] *)

Lemma double_ltb_leb (a b : float) :
  (a <? b)%float = true -> (a <=? b)%float = true.
Proof. rewrite ltb_spec, leb_spec. apply SFltb_SFleb. Qed.

Lemma double_leb_trans (a b c : float) :
  (a <=? b)%float = true -> (b <=? c)%float = true -> (a <=? c)%float = true.
Proof. rewrite !leb_spec. apply SFleb_trans. Qed.

(** X5.  On numbers [maximum] is one of its arguments and not below either;
    [minimum] is one of them and not above either. *)
Theorem maximum_minimum_bounds (a b : float) :
  (a =? a)%float = true -> (b =? b)%float = true ->
  ((a <=? maximum a b)%float = true /\ (b <=? maximum a b)%float = true /\
   (maximum a b = a \/ maximum a b = b)) /\
  ((minimum a b <=? a)%float = true /\ (minimum a b <=? b)%float = true /\
   (minimum a b = a \/ minimum a b = b)).
Proof.
  intros Ha Hb. unfold maximum, minimum, condition; simpl. split.
  - destruct (a <? b)%float eqn:E.
    + repeat split; auto using double_leb_refl.
      apply double_ltb_leb. exact E.
    + repeat split; auto using double_leb_refl, double_total.
  - destruct (b <? a)%float eqn:E.
    + repeat split; auto using double_leb_refl.
      apply double_ltb_leb. exact E.
    + repeat split; auto using double_leb_refl, double_total.
Qed.

Lemma maximum_minimum_bounds_witness :
  ((0.3 <=? maximum 0.3 1)%float = true /\
   (1 <=? maximum 0.3 1)%float = true /\
   (maximum 0.3%float 1%float = 0.3%float \/
    maximum 0.3%float 1%float = 1%float)) /\
  ((minimum 0.3 1 <=? 0.3)%float = true /\
   (minimum 0.3 1 <=? 1)%float = true /\
   (minimum 0.3%float 1%float = 0.3%float \/
    minimum 0.3%float 1%float = 1%float)).
Proof.
  refine (maximum_minimum_bounds 0.3%float 1%float _ _); reflexivity.
Defined.

(** X6.  With a NaN among the two arguments, [maximum], [max] and [minimum]
    return the first argument: a NaN in the second place is dropped, one in
    the first place is returned. *)
Theorem maximum_minimum_nan (a b : float) :
  (a =? a)%float = false \/ (b =? b)%float = false ->
  maximum a b = a /\ max a b = a /\ minimum a b = a.
Proof.
  intros Hn. unfold maximum, minimum, max, condition; simpl.
  assert (E1 : (a <? b)%float = false /\ (b <? a)%float = false).
  { rewrite !ltb_spec.
    assert (Hs : Prim2SF a = S754_nan \/ Prim2SF b = S754_nan).
    { rewrite !double_self_unequal in Hn. exact Hn. }
    destruct Hs as [-> | ->]; unfold SFltb; split;
      try reflexivity; destruct (Prim2SF _); reflexivity. }
  destruct E1 as [-> ->]. auto.
Qed.

Lemma maximum_minimum_nan_witness :
  maximum 1%float nan = 1%float /\ max 1%float nan = 1%float /\
  minimum 1%float nan = 1%float.
Proof.
  refine (maximum_minimum_nan 1%float nan _). right. reflexivity.
Defined.

(** *** [linear_interpolation] and [average] *)

(** X8.  At [t = 0] the interpolation is [a], provided the difference [b - a] is
    finite; when it overflows, [0 * infinity] makes the result NaN. *)
Theorem linear_interpolation_at_zero (a b : float) :
  (a =? a)%float = true ->
  (PrimFloat.abs (b - a) <? infinity)%float = true ->
  (linear_interpolation a b 0%float =? a)%float = true.
Proof.
  intros Ha Hd. apply double_self_equal in Ha. apply double_finite in Hd.
  unfold linear_interpolation; simpl.
  rewrite eqb_spec, add_spec, mul_spec.
  change (Prim2SF 0) with (S754_zero false).
  destruct (SFmul_zero_l prec emax false _ Hd) as [s Es].
  unfold SF64add, SF64mul. rewrite Es.
  apply SFadd_zero_r. exact Ha.
Qed.

Lemma linear_interpolation_at_zero_witness :
  (linear_interpolation 0.3%float 1e308%float 0%float =? 0.3)%float = true.
Proof.
  refine (linear_interpolation_at_zero 0.3%float 1e308%float _ _);
    reflexivity.
Defined.

Example linear_interpolation_overflow :
  (linear_interpolation (-1e308)%float 1e308%float 0%float =? -1e308)%float
  = false.
Proof. reflexivity. Qed.

(** X9.  [average] does not depend on the order of its arguments. *)
Theorem average_symmetric (a b : float) : average a b = average b a.
Proof.
  unfold average; simpl. rewrite (double_add_comm a b). reflexivity.
Qed.

(** *** [sin_x_over_x] *)

(** X10.  [sin_x_over_x] is even, whatever the library's sine is. *)
Theorem sin_x_over_x_even (scalar_sin : float -> float)
    (six epsilon x : float) :
  sin_x_over_x PrimFloat.sqrt scalar_sin six epsilon (- x)%float =
  sin_x_over_x PrimFloat.sqrt scalar_sin six epsilon x.
Proof.
  unfold sin_x_over_x; simpl. rewrite double_abs_opp. reflexivity.
Qed.

(** X11.  At a zero, and at NaN, [sin_x_over_x] is exactly [1.0]: no [0/0] is
    computed, and a NaN argument is not propagated. *)
Theorem sin_x_over_x_at_zero_and_nan (scalar_sin : float -> float)
    (six epsilon x : float) :
  (x =? 0)%float = true \/ (x =? x)%float = false ->
  sin_x_over_x PrimFloat.sqrt scalar_sin six epsilon x = 1%float.
Proof.
  intros Hx. unfold sin_x_over_x; simpl.
  assert (Hy : SFltb (S754_zero false) (SFabs (Prim2SF x)) = false).
  { destruct Hx as [Hx|Hx].
    - rewrite eqb_spec in Hx. change (Prim2SF 0) with (S754_zero false) in Hx.
      unfold SFeqb in Hx.
      destruct (Prim2SF x) as [s|s| |s m e]; try reflexivity;
        destruct s; discriminate Hx.
    - apply double_self_unequal in Hx. rewrite Hx. reflexivity. }
  assert (Hlt : forall e : float,
            (PrimFloat.sqrt e <? PrimFloat.abs x)%float = false).
  { intros e. rewrite ltb_spec, sqrt_spec, abs_spec.
    destruct (SFsqrt_not_negative prec emax (Prim2SF e) (Prim2SF x))
      as [E|E]; [exact E|congruence]. }
  rewrite !Hlt. reflexivity.
Qed.

Lemma sin_x_over_x_at_zero_and_nan_witness :
  sin_x_over_x PrimFloat.sqrt (fun y => y) 6%float 0x1p-52%float nan
  = 1%float.
Proof.
  refine (sin_x_over_x_at_zero_and_nan (fun y => y) 6%float 0x1p-52%float
            nan _).
  right. reflexivity.
Defined.

(** *** [compare] *)

(** X12.  [compare] is symmetric. *)
Theorem compare_symmetric (epsilon a b : float) :
  compare epsilon a b = compare epsilon b a.
Proof.
  unfold compare; simpl. rewrite (double_abs_sub_swap a b). reflexivity.
Qed.

(** X13.  A finite value compares equal to itself when twice the epsilon is not
    negative; an infinity and a NaN do not. *)
Theorem compare_reflexive (epsilon a : float) :
  (0 <=? 2 * epsilon)%float = true ->
  (compare epsilon a a = true <->
   (PrimFloat.abs a <? infinity)%float = true).
Proof.
  intros He. unfold compare; simpl. split.
  - intros E. rewrite ltb_spec, abs_spec.
    rewrite leb_spec, abs_spec, sub_spec in E. unfold SF64sub in E.
    destruct (Prim2SF a) as [s|s| |s m e]; try reflexivity;
      try (destruct s; discriminate E); discriminate E.
  - intros Ha. apply double_finite in Ha.
    assert (E : PrimFloat.abs (a - a) = 0%float).
    { apply Prim2SF_inj. rewrite abs_spec, sub_spec. unfold SF64sub.
      rewrite (SFsub_diag _ _ _ Ha). reflexivity. }
    rewrite E. exact He.
Qed.

Lemma compare_reflexive_witness :
  compare 0x1p-52%float 1%float 1%float = true <->
  (PrimFloat.abs 1 <? infinity)%float = true.
Proof.
  refine (compare_reflexive 0x1p-52%float 1%float _). reflexivity.
Defined.

(** ** [ceildiv] *)

Lemma in_int_bounds (z : Z) :
  in_int z = true <-> (int_min <= z <= int_max)%Z.
Proof.
  unfold in_int. rewrite andb_true_iff, !Z.leb_le. tauto.
Qed.

Lemma quot_in_int (a b : Z) :
  in_int a = true -> in_int b = true -> b <> 0%Z ->
  ~ (a = int_min /\ b = (-1)%Z) ->
  in_int (Z.quot a b + (if (Z.rem a b =? 0)%Z then 0 else 1))%Z = true.
Proof.
  rewrite !in_int_bounds. unfold int_min, int_max. intros Ha Hb Hz Hm.
  assert (Hq : (Z.abs b * Z.abs (Z.quot a b) <= Z.abs a)%Z).
  { rewrite <- Z.quot_abs by assumption.
    rewrite Z.quot_div_nonneg by lia.
    apply Z.mul_div_le. lia. }
  destruct (Z.eqb_spec (Z.rem a b) 0) as [R|R].
  - destruct (Z.eq_dec b (-1)) as [B|B].
    + subst b. assert (a <> - 2 ^ 31)%Z by tauto. lia.
    + destruct (Z.eq_dec b 1) as [B1|B1].
      * subst b. rewrite Z.quot_1_r. lia.
      * assert (2 <= Z.abs b)%Z by lia. nia.
  - assert (Hb2 : (2 <= Z.abs b)%Z).
    { destruct (Z.eq_dec (Z.abs b) 1) as [B|B]; [|lia].
      exfalso. apply R.
      pose proof (Z.rem_bound_abs a b Hz). lia. }
    nia.
Qed.

(** X14.  On [int] operands [ceildiv] is undefined for a zero divisor and for
    [INT_MIN / -1] only: adding one to the quotient never overflows. *)
Theorem ceildiv_undefined_iff (a b : Z) :
  in_int a = true -> in_int b = true ->
  (ceildiv a b = None <-> b = 0%Z \/ (a = int_min /\ b = (-1)%Z)).
Proof.
  intros Ha Hb. unfold ceildiv.
  destruct (Z.eqb_spec b 0) as [B|B]; [tauto|].
  destruct (Z.eqb_spec a int_min) as [A|A];
    destruct (Z.eqb_spec b (-1)) as [C|C]; cbn [andb];
    try tauto;
    rewrite quot_in_int by (try assumption; tauto);
    split; try discriminate; tauto.
Qed.

Lemma ceildiv_undefined_iff_witness :
  ceildiv 7 0 = None <-> 0%Z = 0%Z \/ (7%Z = int_min /\ 0%Z = (-1)%Z).
Proof.
  apply (ceildiv_undefined_iff 7 0); reflexivity.
Defined.

Lemma ceildiv_value (a b q : Z) :
  ceildiv a b = Some q ->
  b <> 0%Z /\ q = (Z.quot a b + (if (Z.rem a b =? 0)%Z then 0 else 1))%Z.
Proof.
  unfold ceildiv.
  destruct (Z.eqb_spec b 0) as [B|B]; [discriminate|].
  destruct ((a =? int_min)%Z && (b =? -1)%Z); [discriminate|].
  destruct (in_int _); [|discriminate].
  intros E. injection E as E. split; [assumption|congruence].
Qed.

(** X15.  When the exact quotient is not negative, [ceildiv] is its ceiling. *)
Theorem ceildiv_is_ceiling (a b q : Z) :
  (0 <= a /\ 0 < b)%Z \/ (a <= 0 /\ b < 0)%Z ->
  ceildiv a b = Some q ->
  is_ceiling a b q.
Proof.
  intros Hs E. apply ceildiv_value in E. destruct E as [Hz ->].
  pose proof (Z.quot_rem' a b) as E.
  unfold is_ceiling.
  destruct Hs as [[Ha Hb]|[Ha Hb]].
  - left. split; [assumption|].
    pose proof (Z.rem_bound_pos a b Ha Hb) as Hr.
    destruct (Z.eqb_spec (Z.rem a b) 0) as [R|R]; nia.
  - right. split; [assumption|].
    pose proof (Z.rem_opp_opp a b Hz) as Ho.
    pose proof (Z.rem_bound_pos (- a) (- b) ltac:(lia) ltac:(lia)) as Hr.
    destruct (Z.eqb_spec (Z.rem a b) 0) as [R|R]; nia.
Qed.

Lemma ceildiv_is_ceiling_witness : is_ceiling 7 2 4.
Proof.
  apply (ceildiv_is_ceiling 7 2 4); [left; lia | reflexivity].
Defined.

(** X16.  When the operands have opposite signs and the division is inexact,
    [ceildiv] is one more than the ceiling of the exact quotient: the
    truncated quotient is the ceiling already. *)
Theorem ceildiv_negative_quotient (a b q : Z) :
  (a < 0 /\ 0 < b)%Z \/ (0 < a /\ b < 0)%Z ->
  Z.rem a b <> 0%Z ->
  ceildiv a b = Some q ->
  is_ceiling a b (q - 1).
Proof.
  intros Hs R E. apply ceildiv_value in E. destruct E as [Hz ->].
  pose proof (Z.quot_rem' a b) as E.
  unfold is_ceiling.
  destruct (Z.eqb_spec (Z.rem a b) 0) as [R'|_]; [contradiction|].
  destruct Hs as [[Ha Hb]|[Ha Hb]].
  - left. split; [assumption|].
    pose proof (Z.rem_opp_l a b Hz) as Ho.
    pose proof (Z.rem_bound_pos (- a) b ltac:(lia) Hb) as Hr.
    nia.
  - right. split; [assumption|].
    pose proof (Z.rem_opp_r a b Hz) as Ho.
    pose proof (Z.rem_bound_pos a (- b) ltac:(lia) ltac:(lia)) as Hr.
    nia.
Qed.

Lemma ceildiv_negative_quotient_witness : is_ceiling (-7) 2 (-2 - 1).
Proof.
  apply (ceildiv_negative_quotient (-7) 2 (-2));
    [left; lia | discriminate | reflexivity].
Defined.

(** ** [load] and [store] *)

Lemma element_bound {A : Type} (ptr : pointer A) (offset : Z) (i : nat) :
  element ptr offset = Some i ->
  (i < length (array ptr))%nat /\ Z.of_nat i = (position ptr + offset)%Z.
Proof.
  unfold element.
  destruct (Z.leb_spec 0 (position ptr + offset));
    destruct (Z.ltb_spec (position ptr + offset)
                (Z.of_nat (length (array ptr)))); cbn [andb];
    try discriminate.
  intros E. injection E as <-. split; lia.
Qed.

Lemma length_assign {A : Type} (l : list A) (i : nat) (v : A) :
  (i < length l)%nat ->
  length (firstn i l ++ v :: skipn (S i) l) = length l.
Proof.
  intros Hi. rewrite length_app, length_firstn. cbn [length].
  rewrite length_skipn. lia.
Qed.

Lemma nth_error_assign_same {A : Type} (l : list A) (i : nat) (v : A) :
  (i < length l)%nat ->
  nth_error (firstn i l ++ v :: skipn (S i) l) i = Some v.
Proof.
  intros Hi. rewrite nth_error_app2; rewrite length_firstn; [|lia].
  replace (i - Nat.min i (length l))%nat with 0%nat by lia. reflexivity.
Qed.

Lemma nth_error_assign_other {A : Type} (l : list A) (i j : nat) (v : A) :
  (i < length l)%nat -> j <> i ->
  nth_error (firstn i l ++ v :: skipn (S i) l) j = nth_error l j.
Proof.
  intros Hi Hj. destruct (Nat.lt_ge_cases j i) as [L|L].
  - rewrite nth_error_app1 by (rewrite length_firstn; lia).
    rewrite nth_error_firstn.
    destruct (Nat.ltb_spec j i); [reflexivity|lia].
  - rewrite nth_error_app2; rewrite length_firstn; [|lia].
    replace (j - Nat.min i (length l))%nat with (S (j - S i)) by lia.
    cbn [nth_error]. rewrite nth_error_skipn. f_equal. lia.
Qed.

(** X17.  After [store(value, ptr, offset)], [load(ptr, offset)] is [value] and
    every other element of the array is what it was. *)
Theorem load_after_store {A : Type} (value : A) (ptr ptr' : pointer A)
    (offset : Z) :
  store value ptr offset = Some ptr' ->
  load ptr' offset = Some value /\
  forall other : Z, other <> offset -> load ptr' other = load ptr other.
Proof.
  unfold store. destruct (element ptr offset) as [i|] eqn:Ei; [|discriminate].
  intros E.
  assert (E' : ptr' =
    {| array := firstn i (array ptr) ++ value :: skipn (S i) (array ptr);
       position := position ptr |}) by congruence.
  clear E. subst ptr'.
  destruct (element_bound _ _ _ Ei) as [Hi Hp].
  split.
  - unfold load, element. cbv zeta. cbn [array position].
    rewrite length_assign by assumption.
    unfold element in Ei. cbv zeta in Ei. destruct (_ && _); [|discriminate].
    injection Ei as Ei. rewrite Ei.
    apply nth_error_assign_same. assumption.
  - intros other Ho. unfold load, element. cbv zeta. cbn [array position].
    rewrite length_assign by assumption.
    destruct (_ && _) eqn:Eo; [|reflexivity].
    apply nth_error_assign_other; [assumption|].
    apply andb_true_iff in Eo. destruct Eo as [Eo _].
    apply Z.leb_le in Eo. lia.
Qed.

Lemma load_after_store_witness :
  load {| array := [1%Z; 9%Z; 3%Z]; position := 1 |} 0 = Some 9%Z /\
  forall other : Z, other <> 0%Z ->
    load {| array := [1%Z; 9%Z; 3%Z]; position := 1 |} other =
    load {| array := [1%Z; 2%Z; 3%Z]; position := 1 |} other.
Proof.
  apply (load_after_store 9%Z {| array := [1%Z; 2%Z; 3%Z]; position := 1 |}).
  reflexivity.
Defined.

(** [store] is defined exactly where [load] is. *)
Lemma store_defined_iff_load_defined {A : Type} (value : A) (ptr : pointer A)
    (offset : Z) :
  store value ptr offset = None <-> load ptr offset = None.
Proof.
  unfold store, load. destruct (element ptr offset) as [i|] eqn:Ei.
  - destruct (element_bound _ _ _ Ei) as [Hi _].
    split; [discriminate|]. intros E. apply nth_error_None in E. lia.
  - tauto.
Qed.
